(** * ShapeDiameterFunction (libslic3r) : a shallow embedding in Rocq

    The header [src/libslic3r/ShapeDiameterFunction.hpp] declares the
    class [ShapeDiameterFunction] together with its configuration records
    [RaysConfig], [SampleConfig] and [Config].  The configuration records
    are embedded from the header.  The bodies of the static functions are
    not part of the sources at hand; each of them is embedded from the
    description of the component in the specification, and its doc comment
    says so.

    [float] and [double] are embedded as real numbers: the separation,
    width and length properties are stated on exact values. *)

From Stdlib Require Import Reals Lra Lia List Permutation.
From Stdlib Require Import Ratan ZArith RNsatz.
Import ListNotations.

Open Scope R_scope.

(* ------------------------------------------------------------------ *)
(** ** Vectors ([Vec3f]) *)

Record Vec3 := mkVec { vx : R; vy : R; vz : R }.

Definition vadd (a b : Vec3) : Vec3 :=
  mkVec (vx a + vx b) (vy a + vy b) (vz a + vz b).
Definition vsub (a b : Vec3) : Vec3 :=
  mkVec (vx a - vx b) (vy a - vy b) (vz a - vz b).
Definition vscale (k : R) (a : Vec3) : Vec3 :=
  mkVec (k * vx a) (k * vy a) (k * vz a).
Definition dot (a b : Vec3) : R := vx a * vx b + vy a * vy b + vz a * vz b.
Definition cross (a b : Vec3) : Vec3 :=
  mkVec (vy a * vz b - vz a * vy b)
        (vz a * vx b - vx a * vz b)
        (vx a * vy b - vy a * vx b).
Definition squaredNorm (a : Vec3) : R := dot a a.
Definition norm (a : Vec3) : R := sqrt (squaredNorm a).
Definition vzero : Vec3 := mkVec 0 0 0.
Definition unit_z : Vec3 := mkVec 0 0 1.

(** Squared distance and distance of two points. *)
Definition dist2 (a b : Vec3) : R := squaredNorm (vsub a b).
Definition dist (a b : Vec3) : R := sqrt (dist2 a b).

(** Boolean comparisons on reals, as the C++ [<], [<=] and [>]. *)
Definition Rltb (x y : R) : bool := if Rlt_dec x y then true else false.
Definition Rleb (x y : R) : bool := if Rle_dec x y then true else false.

(* ------------------------------------------------------------------ *)
(** ** Direction sampler *)

(** [struct Direction { Vec3f dir; float weight; }] *)
Record Direction := mkDirection { dir : Vec3; weight : R }.
Definition Directions := list Direction.

Definition deg_to_rad (a : R) : R := a * PI / 180.

(** Golden angle of the Fibonacci spiral. *)
Definition golden_angle : R := PI * (3 - sqrt 5).

(** Height of the [i]-th of [n] spiral points on the half sphere [z > 0]. *)
Definition fibonacci_z (n i : nat) : R := 1 - (INR i + / 2) / INR n.

Definition fibonacci_point (n i : nat) : Vec3 :=
  let z := fibonacci_z n i in
  let r := sqrt (1 - z * z) in
  let theta := golden_angle * INR i in
  mkVec (r * cos theta) (r * sin theta) z.

(** Polar angle of a unit vector, measured from the pole axis [+Z]. *)
Definition polar_angle (v : Vec3) : R := acos (dot v unit_z).

(** Modelled from the spec: the body of
    [ShapeDiameterFunction::create_fibonacci_sphere_samples] (section 4.1).
    [count] points are placed on the half sphere around [+Z] by the
    golden-ratio spiral, points whose polar angle exceeds [angle] degrees
    are discarded, and each survivor carries its cosine with the pole axis
    as weight.  [count = 0] gives the empty set. *)
Definition create_fibonacci_sphere_samples (angle : R) (count_samples : nat)
  : Directions :=
  map (fun v => mkDirection v (dot v unit_z))
      (filter (fun v => Rleb (polar_angle v) (deg_to_rad angle))
              (map (fibonacci_point count_samples) (seq 0 count_samples))).

(** The caller-supplied random generator ([std::mt19937 &]) is threaded as
    explicit state.  A function of the class is run in this state-passing
    form; [create_fibonacci_sphere_samples] takes no generator, so its
    state-passing form returns the state untouched. *)
Definition Rand (Gen A : Type) := Gen -> A * Gen.

Definition fibonacci_in_rand {Gen : Type} (angle : R) (count_samples : nat)
  : Rand Gen Directions :=
  fun g => (create_fibonacci_sphere_samples angle count_samples, g).

(* ------------------------------------------------------------------ *)
(** ** Configuration records (embedded from the header) *)

(** [NormalUtils::VertexNormalType] *)
Inductive VertexNormalType :=
| AverageNeighbor
| AngleWeighted
| NelsonMaxWeighted.

(** [struct ShapeDiameterFunction::RaysConfig] *)
Record RaysConfig := mkRaysConfig {
  allowed_deviation : R;
  allowed_angle : R;
  dirs : Directions;
  safe_move : R;
  rays_normal_z_max : R
}.

(** [RaysConfig() = default;] with the member initialisers
    [1.5f], [-1.f], [create_fibonacci_sphere_samples(120., 60)], [1e-3f],
    [0.3f]. *)
Definition RaysConfig_default : RaysConfig :=
  mkRaysConfig (15 / 10) (-1) (create_fibonacci_sphere_samples 120 60)
               (1 / 1000) (3 / 10).

Definition set_no_deviation_filtering (c : RaysConfig) : RaysConfig :=
  mkRaysConfig (-1) (allowed_angle c) (dirs c) (safe_move c)
               (rays_normal_z_max c).
Definition is_deviation_filtering (c : RaysConfig) : bool :=
  Rltb 0 (allowed_deviation c).
Definition set_no_angle_filtering (c : RaysConfig) : RaysConfig :=
  mkRaysConfig (allowed_deviation c) (-1) (dirs c) (safe_move c)
               (rays_normal_z_max c).
Definition is_angle_filtering (c : RaysConfig) : bool :=
  Rltb 0 (allowed_angle c).

(** [struct ShapeDiameterFunction::SampleConfig] *)
Record SampleConfig := mkSampleConfig {
  min_width : R;
  max_width : R;
  min_radius : R;
  max_radius : R;
  sample_normal_z_max : R;
  multiplicator : R
}.

(** [SampleConfig() = default;] : [0.1f], [10.f], [1.5f], [10.f], [0.3f],
    [6]. *)
Definition SampleConfig_default : SampleConfig :=
  mkSampleConfig (1 / 10) 10 (15 / 10) 10 (3 / 10) 6.

(** [struct ShapeDiameterFunction::Config] *)
Record Config := mkConfig {
  rays : RaysConfig;
  sample : SampleConfig;
  max_error : R;
  min_length : R;
  max_length : R;
  normal_type : VertexNormalType
}.

(** [Config() = default;] : [.5f], [.5f], [1.f], [NelsonMaxWeighted]. *)
Definition Config_default : Config :=
  mkConfig RaysConfig_default SampleConfig_default (5 / 10) (5 / 10) 1
           NelsonMaxWeighted.

(** All members are public; after construction a caller assigns them.
    [c.sample.normal_z_max = v;] *)
Definition assign_sample_normal_z_max (c : Config) (v : R) : Config :=
  let s := sample c in
  mkConfig (rays c)
    (mkSampleConfig (min_width s) (max_width s) (min_radius s) (max_radius s)
                    v (multiplicator s))
    (max_error c) (min_length c) (max_length c) (normal_type c).

(** [c.sample.min_width = lo; c.sample.max_width = hi;] *)
Definition assign_sample_widths (c : Config) (lo hi : R) : Config :=
  let s := sample c in
  mkConfig (rays c)
    (mkSampleConfig lo hi (min_radius s) (max_radius s)
                    (sample_normal_z_max s) (multiplicator s))
    (max_error c) (min_length c) (max_length c) (normal_type c).

(** The cross-field requirements written in the header's comments and in
    the specification. *)
Definition config_consistent (c : Config) : Prop :=
  rays_normal_z_max (rays c) <= sample_normal_z_max (sample c) /\
  min_width (sample c) < max_width (sample c).

(* ------------------------------------------------------------------ *)
(** ** Spatial index adapter and SDF width estimator *)

(** [struct AABBTree].  The tree and [vertices_indices] are only consumed
    through [AABBTreeIndirect::intersect_ray_first_hit], an external
    collaborator: it is carried as its query, which answers the distance
    along the ray and the index of the first triangle hit, if any. *)
Record AABBTree := mkAABBTree {
  intersect_ray_first_hit : Vec3 -> Vec3 -> option (R * nat);
  triangle_normals : list Vec3
}.

(** Modelled from the spec: the rotation of step 1 of section 4.2, mapping
    the pole axis [+Z] onto the unit vector [t] (Rodrigues' formula with
    the unnormalised axis [Z x t]; for [t = -Z] the half turn about [X]). *)
Definition rotate_pole_to (t v : Vec3) : Vec3 :=
  if Req_dec_T (1 + vz t) 0 then mkVec (vx v) (- vy v) (- vz v)
  else
    let k := cross unit_z t in
    vadd v (vadd (cross k v) (vscale (/ (1 + vz t)) (cross k (cross k v)))).

(** A hit that survived: distance along the ray and weight of the ray. *)
Definition Hit := (R * R)%type.

(** Modelled from the spec: steps 2 and 3 of section 4.2, one ray of the
    bundle.  The ray starts at [point + safe_move * normal] along the
    rotated direction; a hit is dropped by the angle filter when the angle
    between the ray and the hit triangle's normal is less than
    [PI - allowed_angle]. *)
Definition cast_ray (point normal : Vec3) (tree : AABBTree)
    (config : RaysConfig) (d : Direction) : option Hit :=
  let ray_dir := rotate_pole_to (vscale (-1) normal) (dir d) in
  let origin := vadd point (vscale (safe_move config) normal) in
  match intersect_ray_first_hit tree origin ray_dir with
  | None => None
  | Some (distance, tri) =>
      let tn := nth tri (triangle_normals tree) vzero in
      if (is_angle_filtering config &&
         Rltb (acos (dot ray_dir tn)) (PI - allowed_angle config))%bool
      then None
      else Some (distance, weight d)
  end.

Fixpoint collect_hits (hs : list (option Hit)) : list Hit :=
  match hs with
  | [] => []
  | Some h :: rest => h :: collect_hits rest
  | None :: rest => collect_hits rest
  end.

Definition weight_sum (hs : list Hit) : R :=
  fold_right (fun h acc => snd h + acc) 0 hs.
Definition weighted_average (hs : list Hit) : R :=
  fold_right (fun h acc => fst h * snd h + acc) 0 hs / weight_sum hs.
Definition weighted_deviation (hs : list Hit) : R :=
  let m := weighted_average hs in
  sqrt (fold_right (fun h acc => snd h * ((fst h - m) * (fst h - m)) + acc) 0 hs
        / weight_sum hs).

(** Modelled from the spec: step 4 of section 4.2. *)
Definition deviation_filter (config : RaysConfig) (hs : list Hit) : list Hit :=
  if (is_deviation_filtering config && (2 <=? length hs)%nat)%bool then
    let m := weighted_average hs in
    let sd := weighted_deviation hs in
    filter (fun h => Rleb (Rabs (fst h - m)) (allowed_deviation config * sd)) hs
  else hs.

(** Modelled from the spec: the "undetermined" width of step 5. *)
Definition undetermined_width : R := 0.

(** Hits kept after casting every ray and filtering. *)
Definition filtered_hits (point normal : Vec3) (tree : AABBTree)
    (config : RaysConfig) : list Hit :=
  deviation_filter config
    (collect_hits (map (cast_ray point normal tree config) (dirs config))).

(** Modelled from the spec: the body of [ShapeDiameterFunction::calc_width]
    (section 4.2). *)
Definition calc_width (point normal : Vec3) (tree : AABBTree)
    (config : RaysConfig) : R :=
  match filtered_hits point normal tree config with
  | [] => undetermined_width
  | hs => weighted_average hs
  end.

(** [widths[i] = v] on a [std::vector<float>] of the right size. *)
Fixpoint set_nth (i : nat) (v : R) (l : list R) : list R :=
  match l, i with
  | [], _ => []
  | _ :: t, O => v :: t
  | x :: t, S j => x :: set_nth j v t
  end.

(** Modelled from the spec: the body of [ShapeDiameterFunction::calc_widths]
    (section 4.2): [widths(points.size())], then for each index
    [widths[i] = calc_width(points[i], normals[i], tree, config)].  The
    parallel loop runs the indices in an order [ord] picked by the
    scheduler. *)
Definition calc_widths_scheduled (ord : list nat) (points normals : list Vec3)
    (tree : AABBTree) (config : RaysConfig) : list R :=
  fold_left
    (fun w i => set_nth i (calc_width (nth i points vzero) (nth i normals vzero)
                                      tree config) w)
    ord (repeat 0 (length points)).

(** The cells written by a schedule [ord] of independent per-index
    computations [f]. *)
Definition scheduled_writes (f : nat -> R) (ord : list nat) (w : list R)
    : list R :=
  fold_left (fun acc i => set_nth i (f i) acc) ord w.

(** The sequential schedule [0, 1, ..., n-1]. *)
Definition calc_widths (points normals : list Vec3) (tree : AABBTree)
    (config : RaysConfig) : list R :=
  calc_widths_scheduled (seq 0 (length points)) points normals tree config.

(* ------------------------------------------------------------------ *)
(** ** Poisson thinner *)

(** [struct PointRadius { Vec3f point; float radius; }] *)
Record PointRadius := mkPointRadius { point : Vec3; radius : R }.
Definition PointRadiuses := list PointRadius.

(** Modelled from the spec: the point grid boundary of section 6, an
    append-only collection answering "points within a radius". *)
Definition PointGrid3D := list PointRadius.
Definition grid_insert (grid : PointGrid3D) (pr : PointRadius) : PointGrid3D :=
  grid ++ [pr].
Definition query_within (grid : PointGrid3D) (pos : Vec3) (r : R)
  : list PointRadius :=
  filter (fun n => Rleb (dist (point n) pos) r) grid.

(** The neighbour's radius sum with the sample exceeds their distance. *)
Definition overlaps (s n : PointRadius) : bool :=
  Rltb (dist (point n) (point s)) (radius s + radius n).

Fixpoint poisson_pass (grid : PointGrid3D) (samples : PointRadiuses)
  : PointRadiuses :=
  match samples with
  | [] => []
  | s :: rest =>
      if existsb (overlaps s) (query_within grid (point s) (radius s))
      then poisson_pass grid rest
      else s :: poisson_pass (grid_insert grid s) rest
  end.

(** Modelled from the spec: the body of
    [ShapeDiameterFunction::poisson_sphere_from_samples] (section 4.6).
    [samples] is IN/OUT: the result is the surviving samples in their
    order; the caller's [grid] is [const], the pass works on its own copy. *)
Definition poisson_sphere_from_samples (samples : PointRadiuses)
    (grid : PointGrid3D) : PointRadiuses :=
  poisson_pass grid samples.

(* ------------------------------------------------------------------ *)
(** ** Meshes ([indexed_triangle_set]) and geometry utilities *)

Definition Face := (nat * nat * nat)%type.

Record indexed_triangle_set := mkITS {
  vertices : list Vec3;
  indices : list Face
}.

Definition vertex_at (vs : list Vec3) (i : nat) : Vec3 := nth i vs vzero.

(** Modelled from the spec: [ShapeDiameterFunction::triangle_area]. *)
Definition triangle_area (v0 v1 v2 : Vec3) : R :=
  norm (cross (vsub v1 v0) (vsub v2 v0)) / 2.




(* ------------------------------------------------------------------ *)
(** ** Support-point generator *)

(** Modelled from the spec (section 4.5): the width is clamped to
    [[min_width, max_width]] and mapped linearly onto
    [[min_radius, max_radius]]. *)
Definition width_to_radius (cfg : SampleConfig) (w : R) : R :=
  let wc := Rmax (min_width cfg) (Rmin w (max_width cfg)) in
  min_radius cfg
  + (wc - min_width cfg) / (max_width cfg - min_width cfg)
    * (max_radius cfg - min_radius cfg).



Section SupportPoints.
(** State of [std::mt19937]. *)
Context {Gen : Type}.
(** Vertex normals of [NormalUtils] (an external collaborator). *)
Variable vertex_normal : indexed_triangle_set -> nat -> Vec3.
(** One uniformly random surface point around a vertex, drawn from the
    generator (the distributions of [<random>]). *)
Variable random_point_near : indexed_triangle_set -> nat -> Gen -> Vec3 * Gen.



End SupportPoints.


(* ------------------------------------------------------------------ *)
(** ** Mesh normalizer: edge subdivision *)

Definition midpoint (a b : Vec3) : Vec3 := vscale (/ 2) (vadd a b).

(** An edge longer than [max_length]. *)
Definition is_long (max_length : R) (a b : Vec3) : bool :=
  Rltb max_length (dist a b).

(** During one round the new midpoint vertices are appended to the vertex
    list; a cache keyed by the (unordered) edge makes the two triangles
    sharing a split edge use the same midpoint vertex. *)
Definition SubState := (list Vec3 * list ((nat * nat) * nat))%type.

Definition edge_key (i j : nat) : nat * nat :=
  if Nat.leb i j then (i, j) else (j, i).

Fixpoint cache_find (k : nat * nat) (cache : list ((nat * nat) * nat))
  : option nat :=
  match cache with
  | [] => None
  | (k', m) :: rest =>
      if (Nat.eqb (fst k) (fst k') && Nat.eqb (snd k) (snd k'))%bool
      then Some m else cache_find k rest
  end.

(** Index of the midpoint of edge [i j], appended on first use; [vs0] are
    the vertices at the start of the round. *)
Definition midpoint_index (vs0 : list Vec3) (i j : nat) (st : SubState)
  : nat * SubState :=
  let '(vs, cache) := st in
  match cache_find (edge_key i j) cache with
  | Some m => (m, st)
  | None =>
      (length vs,
       (vs ++ [midpoint (vertex_at vs0 i) (vertex_at vs0 j)],
        (edge_key i j, length vs) :: cache))
  end.

(** Modelled from the spec (section 4.3): the long edges of the triangle
    [(i, j, k)] are split at their midpoints and the triangle is
    re-triangulated.  Edges: [e0 = ij], [e1 = jk], [e2 = ki]. *)
Definition split_face (max_length : R) (vs0 : list Vec3) (f : Face)
    (st : SubState) : list Face * SubState :=
  let '(i, j, k) := f in
  let a := vertex_at vs0 i in
  let b := vertex_at vs0 j in
  let c := vertex_at vs0 k in
  match is_long max_length a b, is_long max_length b c,
        is_long max_length c a with
  | false, false, false => ([(i, j, k)], st)
  | true, false, false =>
      let '(m, st1) := midpoint_index vs0 i j st in
      ([(i, m, k); (m, j, k)], st1)
  | false, true, false =>
      let '(m, st1) := midpoint_index vs0 j k st in
      ([(i, j, m); (i, m, k)], st1)
  | false, false, true =>
      let '(m, st1) := midpoint_index vs0 k i st in
      ([(i, j, m); (m, j, k)], st1)
  | true, true, false =>
      let '(mij, st1) := midpoint_index vs0 i j st in
      let '(mjk, st2) := midpoint_index vs0 j k st1 in
      ([(mij, j, mjk); (i, mij, mjk); (i, mjk, k)], st2)
  | false, true, true =>
      let '(mjk, st1) := midpoint_index vs0 j k st in
      let '(mki, st2) := midpoint_index vs0 k i st1 in
      ([(mki, mjk, k); (i, j, mjk); (i, mjk, mki)], st2)
  | true, false, true =>
      let '(mij, st1) := midpoint_index vs0 i j st in
      let '(mki, st2) := midpoint_index vs0 k i st1 in
      ([(i, mij, mki); (mij, j, k); (mij, k, mki)], st2)
  | true, true, true =>
      let '(mij, st1) := midpoint_index vs0 i j st in
      let '(mjk, st2) := midpoint_index vs0 j k st1 in
      let '(mki, st3) := midpoint_index vs0 k i st2 in
      ([(i, mij, mki); (mij, j, mjk); (mki, mjk, k); (mij, mjk, mki)], st3)
  end.

Fixpoint split_faces (max_length : R) (vs0 : list Vec3) (fs : list Face)
    (st : SubState) : list Face * SubState :=
  match fs with
  | [] => ([], st)
  | f :: rest =>
      let '(out1, st1) := split_face max_length vs0 f st in
      let '(out2, st2) := split_faces max_length vs0 rest st1 in
      (out1 ++ out2, st2)
  end.

(** One round: every triangle is split along its long edges. *)
Definition subdivide_round (max_length : R) (its : indexed_triangle_set)
  : indexed_triangle_set :=
  let '(fs, (vs, _)) :=
    split_faces max_length (vertices its) (indices its) (vertices its, []) in
  mkITS vs fs.

Definition face_edges (vs : list Vec3) (f : Face) : list (Vec3 * Vec3) :=
  let '(i, j, k) := f in
  let a := vertex_at vs i in
  let b := vertex_at vs j in
  let c := vertex_at vs k in
  [(a, b); (b, c); (c, a)].

Definition mesh_edges (its : indexed_triangle_set) : list (Vec3 * Vec3) :=
  flat_map (face_edges (vertices its)) (indices its).

Definition has_long_edge (max_length : R) (its : indexed_triangle_set) : bool :=
  existsb (fun e => is_long max_length (fst e) (snd e)) (mesh_edges its).

(** [while (some edge is longer than max_length) split;] with a bound on
    the number of rounds. *)
Fixpoint subdivide_loop (fuel : nat) (max_length : R)
    (its : indexed_triangle_set) : indexed_triangle_set :=
  match fuel with
  | O => its
  | S n =>
      if has_long_edge max_length its
      then subdivide_loop n max_length (subdivide_round max_length its)
      else its
  end.

Definition max_edge2 (its : indexed_triangle_set) : R :=
  fold_right Rmax 0 (map (fun e => dist2 (fst e) (snd e)) (mesh_edges its)).

(** Enough rounds: each round divides the longest squared edge by at least
    [4/3] while it exceeds [max_length^2]. *)
Definition subdivide_fuel (its : indexed_triangle_set) (max_length : R) : nat :=
  S (Z.to_nat (up (4 * max_edge2 its / (max_length * max_length)))).

(** Modelled from the spec: the body of [ShapeDiameterFunction::subdivide]
    (section 4.3). *)
Definition subdivide (its : indexed_triangle_set) (max_length : R)
  : indexed_triangle_set :=
  subdivide_loop (subdivide_fuel its max_length) max_length its.

(** The same split on the positions of a triangle. *)
Definition Triangle := (Vec3 * Vec3 * Vec3)%type.

Definition face_points (vs : list Vec3) (f : Face) : Triangle :=
  let '(i, j, k) := f in (vertex_at vs i, vertex_at vs j, vertex_at vs k).

Definition tri_edges (t : Triangle) : list (Vec3 * Vec3) :=
  let '(a, b, c) := t in [(a, b); (b, c); (c, a)].

Definition split_triangle (max_length : R) (t : Triangle) : list Triangle :=
  let '(a, b, c) := t in
  match is_long max_length a b, is_long max_length b c,
        is_long max_length c a with
  | false, false, false => [(a, b, c)]
  | true, false, false =>
      let m := midpoint a b in [(a, m, c); (m, b, c)]
  | false, true, false =>
      let m := midpoint b c in [(a, b, m); (a, m, c)]
  | false, false, true =>
      let m := midpoint c a in [(a, b, m); (m, b, c)]
  | true, true, false =>
      let mab := midpoint a b in
      let mbc := midpoint b c in
      [(mab, b, mbc); (a, mab, mbc); (a, mbc, c)]
  | false, true, true =>
      let mbc := midpoint b c in
      let mca := midpoint c a in
      [(mca, mbc, c); (a, b, mbc); (a, mbc, mca)]
  | true, false, true =>
      let mab := midpoint a b in
      let mca := midpoint c a in
      [(a, mab, mca); (mab, b, c); (mab, c, mca)]
  | true, true, true =>
      let mab := midpoint a b in
      let mbc := midpoint b c in
      let mca := midpoint c a in
      [(a, mab, mca); (mab, b, mbc); (mca, mbc, c); (mab, mbc, mca)]
  end.

(** Invariant of the state of a round started on the vertices [vs0]: the
    vertex list extends [vs0], and each cached midpoint index holds the
    midpoint of its edge. *)
Definition extends (vs vs' : list Vec3) : Prop := exists ext, vs' = vs ++ ext.

Definition round_inv (vs0 : list Vec3) (st : SubState) : Prop :=
  extends vs0 (fst st) /\
  forall a b m, In ((a, b), m) (snd st) ->
    (m < length (fst st))%nat /\
    vertex_at (fst st) m = midpoint (vertex_at vs0 a) (vertex_at vs0 b).

(** The indices of a face refer to vertices of [vs]. *)
Definition face_in (vs : list Vec3) (f : Face) : Prop :=
  let '(i, j, k) := f in
  (i < length vs /\ j < length vs /\ k < length vs)%nat.

(** Indices of the mesh refer to its vertices. *)
Definition valid_mesh (its : indexed_triangle_set) : Prop :=
  forall i j k, In (i, j, k) (indices its) ->
    (i < length (vertices its) /\ j < length (vertices its) /\
     k < length (vertices its))%nat.

(** A vertical right triangle with legs of length [40]. *)
Definition wall_triangle : indexed_triangle_set :=
  mkITS [mkVec 0 0 0; mkVec 40 0 0; mkVec 0 0 40] [(0, 1, 2)%nat].


(* ------------------------------------------------------------------ *)
(** ** Geometry utilities over a mesh *)

(** Modelled from the spec: the overload
    [ShapeDiameterFunction::triangle_area(const Vec3crd &inices,
    const std::vector<Vec3f> &vertices)], the area of the triangle whose
    corners are the vertices indexed by [inices]. *)
Definition triangle_area_of_indices (inices : Face) (vertices : list Vec3) : R :=
  let '(i, j, k) := inices in
  triangle_area (vertex_at vertices i) (vertex_at vertices j)
                (vertex_at vertices k).

(** Modelled from the spec: [ShapeDiameterFunction::area], the surface area
    of [its] as the sum of the areas of its triangles. *)
Definition area (its : indexed_triangle_set) : R :=
  fold_right (fun f acc => triangle_area_of_indices f (vertices its) + acc) 0
             (indices its).

(** Modelled from the spec: [ShapeDiameterFunction::min_triangle_side_length],
    the length of the shortest edge over the three edges of every triangle.
    A mesh without triangles has no edge; the result is then [None]. *)
Definition min_triangle_side_length (its : indexed_triangle_set) : option R :=
  fold_right
    (fun e acc =>
       let l := dist (fst e) (snd e) in
       match acc with
       | None => Some l
       | Some m => Some (Rmin l m)
       end)
    None (mesh_edges its).

(** Area of a triangle given by its corner positions. *)
Definition tri_area (t : Triangle) : R :=
  let '(a, b, c) := t in triangle_area a b c.

Definition sum_R (l : list R) : R := fold_right Rplus 0 l.

(* ================================================================== *)
(** * Properties *)

(* ------------------------------------------------------------------ *)
(** ** Configuration records *)

Lemma Rltb_true_iff (x y : R) : Rltb x y = true <-> x < y.
Proof. unfold Rltb; destruct (Rlt_dec x y); split; intros; try lra; congruence. Qed.

Lemma Rltb_false_iff (x y : R) : Rltb x y = false <-> y <= x.
Proof. unfold Rltb; destruct (Rlt_dec x y); split; intros; try lra; congruence. Qed.

Lemma Rleb_true_iff (x y : R) : Rleb x y = true <-> x <= y.
Proof. unfold Rleb; destruct (Rle_dec x y); split; intros; try lra; congruence. Qed.

Lemma Rleb_false_iff (x y : R) : Rleb x y = false <-> y < x.
Proof. unfold Rleb; destruct (Rle_dec x y); split; intros; try lra; congruence. Qed.

(** C9: [is_deviation_filtering] holds exactly when [allowed_deviation > 0]
    and [is_angle_filtering] exactly when [allowed_angle > 0]; the two
    setters switch the filters off; a value of exactly [0] disables the
    filter; the default configuration filters by deviation ([1.5]) but not
    by angle ([-1]). *)
Theorem RaysConfig_filtering_predicates :
  (forall c : RaysConfig,
     (is_deviation_filtering c = true <-> 0 < allowed_deviation c) /\
     (is_angle_filtering c = true <-> 0 < allowed_angle c) /\
     is_deviation_filtering (set_no_deviation_filtering c) = false /\
     is_angle_filtering (set_no_angle_filtering c) = false) /\
  (forall a d s n, is_deviation_filtering (mkRaysConfig 0 a d s n) = false) /\
  (forall e d s n, is_angle_filtering (mkRaysConfig e 0 d s n) = false) /\
  allowed_deviation RaysConfig_default = 3 / 2 /\
  is_deviation_filtering RaysConfig_default = true /\
  allowed_angle RaysConfig_default = -1 /\
  is_angle_filtering RaysConfig_default = false.
Proof.
  unfold is_deviation_filtering, is_angle_filtering.
  repeat split.
  - intro H; apply Rltb_true_iff in H; exact H.
  - intro H; apply Rltb_true_iff; exact H.
  - intro H; apply Rltb_true_iff in H; exact H.
  - intro H; apply Rltb_true_iff; exact H.
  - apply Rltb_false_iff; simpl; lra.
  - apply Rltb_false_iff; simpl; lra.
  - intros; apply Rltb_false_iff; simpl; lra.
  - intros; apply Rltb_false_iff; simpl; lra.
  - simpl; lra.
  - apply Rltb_true_iff; simpl; lra.
  - apply Rltb_false_iff; simpl; lra.
Qed.

(** C10: the default [Config] meets every cross-field requirement:
    [rays.normal_z_max <= sample.normal_z_max] (both [0.3]),
    [min_width < max_width] ([0.1 < 10]), [min_radius < max_radius]
    ([1.5 < 10]) and [min_length <= max_length] ([0.5 <= 1]). *)
Theorem Config_default_consistent :
  rays_normal_z_max (rays Config_default) = 3 / 10 /\
  sample_normal_z_max (sample Config_default) = 3 / 10 /\
  rays_normal_z_max (rays Config_default)
    <= sample_normal_z_max (sample Config_default) /\
  min_width (sample Config_default) < max_width (sample Config_default) /\
  min_radius (sample Config_default) < max_radius (sample Config_default) /\
  min_length Config_default <= max_length Config_default /\
  config_consistent Config_default.
Proof.
  unfold config_consistent; simpl; repeat split; lra.
Qed.

(** C4 (counterexample): default construction followed by the assignment
    [c.sample.normal_z_max = 0.1] yields a [Config], with no error, whose
    [sample.normal_z_max] is smaller than [rays.normal_z_max]. *)
Lemma Config_inconsistent_accepted :
  exists c : Config,
    c = assign_sample_normal_z_max Config_default (1 / 10) /\
    sample_normal_z_max (sample c) < rays_normal_z_max (rays c) /\
    ~ config_consistent c.
Proof.
  eexists; split; [reflexivity|].
  unfold config_consistent; simpl; split; [lra|]; intros [H _]; lra.
Qed.

(** C4 (amended): [Config], [RaysConfig] and [SampleConfig] are plain data
    records without validation: every assignment of a member is accepted
    and stores exactly the assigned value, leaving the other members as
    they were, whether or not the result is consistent. *)
Theorem Config_assignments_unchecked :
  forall (c : Config) (v lo hi : R),
    sample_normal_z_max (sample (assign_sample_normal_z_max c v)) = v /\
    rays (assign_sample_normal_z_max c v) = rays c /\
    min_width (sample (assign_sample_normal_z_max c v)) = min_width (sample c) /\
    max_width (sample (assign_sample_normal_z_max c v)) = max_width (sample c) /\
    min_width (sample (assign_sample_widths c lo hi)) = lo /\
    max_width (sample (assign_sample_widths c lo hi)) = hi /\
    rays (assign_sample_widths c lo hi) = rays c /\
    sample_normal_z_max (sample (assign_sample_widths c lo hi))
      = sample_normal_z_max (sample c).
Proof. intros; repeat split. Qed.

(** C6: [create_fibonacci_sphere_samples] draws nothing from a random
    generator: run from any two generator states it returns the same
    sequence (members, weights and order), which is the function's value
    at its two arguments, and it leaves the generator state untouched. *)
Theorem create_fibonacci_sphere_samples_deterministic :
  forall (Gen : Type) (angle : R) (count_samples : nat) (g1 g2 : Gen),
    fst (fibonacci_in_rand angle count_samples g1)
      = fst (fibonacci_in_rand angle count_samples g2) /\
    fst (fibonacci_in_rand angle count_samples g1)
      = create_fibonacci_sphere_samples angle count_samples /\
    snd (fibonacci_in_rand angle count_samples g1) = g1.
Proof. intros; repeat split. Qed.

(* ------------------------------------------------------------------ *)
(** ** Per-vertex widths *)

Lemma set_nth_length (i : nat) (v : R) (l : list R) :
  length (set_nth i v l) = length l.
Proof.
  revert i; induction l as [|x t IH]; intros [|j]; simpl; auto.
Qed.

Lemma set_nth_nth (i k : nat) (v : R) (l : list R) :
  (k < length l)%nat ->
  nth k (set_nth i v l) 0 = if Nat.eqb k i then v else nth k l 0.
Proof.
  revert i k; induction l as [|x t IH]; intros i k Hk; simpl in Hk; [lia|].
  destruct i as [|j], k as [|k']; simpl; auto.
  apply IH; lia.
Qed.

Section ScheduledWrites.
Variable f : nat -> R.

Lemma scheduled_writes_length (ord : list nat) (w : list R) :
  length (scheduled_writes f ord w) = length w.
Proof.
  revert w; induction ord as [|i ord IH]; intro w; simpl; auto.
  unfold scheduled_writes in *; simpl; rewrite IH; apply set_nth_length.
Qed.

(** A cell holds [f k] once index [k] has been scheduled, whatever the
    order of the writes. *)
Lemma scheduled_writes_nth (ord : list nat) (w : list R) (k : nat) :
  (k < length w)%nat ->
  nth k (scheduled_writes f ord w) 0 =
  if existsb (Nat.eqb k) ord then f k else nth k w 0.
Proof.
  revert w; induction ord as [|i ord IH]; intros w Hk; simpl; auto.
  unfold scheduled_writes in *; simpl.
  rewrite IH by (rewrite set_nth_length; exact Hk).
  rewrite set_nth_nth by exact Hk.
  destruct (existsb (Nat.eqb k) ord); rewrite ?Bool.orb_true_r; auto.
  rewrite Bool.orb_false_r.
  destruct (Nat.eqb_spec k i) as [->|_]; reflexivity.
Qed.

Lemma scheduled_writes_perm (ord : list nat) (n : nat) :
  Permutation ord (seq 0 n) ->
  scheduled_writes f ord (repeat 0 n) = map f (seq 0 n).
Proof.
  intro Hp.
  apply nth_ext with (d := 0) (d' := 0).
  - rewrite scheduled_writes_length, repeat_length, length_map, length_seq.
    reflexivity.
  - intros k Hk.
    rewrite scheduled_writes_length, repeat_length in Hk.
    rewrite scheduled_writes_nth by (rewrite repeat_length; exact Hk).
    rewrite (nth_indep (map f (seq 0 n)) 0 (f 0%nat))
      by (rewrite length_map, length_seq; exact Hk).
    rewrite map_nth, seq_nth by exact Hk; simpl.
    replace (existsb (Nat.eqb k) ord) with true; auto.
    symmetry; apply existsb_exists; exists k; split.
    + apply (Permutation_in _ (Permutation_sym Hp)), in_seq; lia.
    + apply Nat.eqb_refl.
Qed.
End ScheduledWrites.

(** C3: [calc_widths] returns one width per point, in the order of the
    points: the [i]-th width is [calc_width(points[i], normals[i])]; and
    whatever order the parallel loop runs the indices in, the result is
    the same. *)
Theorem calc_widths_pointwise :
  forall (points normals : list Vec3) (tree : AABBTree) (config : RaysConfig),
    length (calc_widths points normals tree config) = length points /\
    (forall i, (i < length points)%nat ->
       nth i (calc_widths points normals tree config) 0 =
       calc_width (nth i points vzero) (nth i normals vzero) tree config) /\
    (forall ord, Permutation ord (seq 0 (length points)) ->
       calc_widths_scheduled ord points normals tree config =
       calc_widths points normals tree config).
Proof.
  intros points normals tree config.
  set (f := fun i => calc_width (nth i points vzero) (nth i normals vzero)
                                tree config).
  assert (Hseq : calc_widths points normals tree config
                 = map f (seq 0 (length points))).
  { apply (scheduled_writes_perm f). apply Permutation_refl. }
  split; [|split].
  - rewrite Hseq, length_map, length_seq; reflexivity.
  - intros i Hi; rewrite Hseq.
    rewrite nth_indep with (d' := f 0%nat)
      by (rewrite length_map, length_seq; exact Hi).
    rewrite map_nth, seq_nth by exact Hi; reflexivity.
  - intros ord Hp; rewrite Hseq.
    apply (scheduled_writes_perm f); exact Hp.
Qed.

(* ------------------------------------------------------------------ *)
(** ** SDF width estimator *)

Lemma deviation_filter_nil (config : RaysConfig) :
  deviation_filter config [] = [].
Proof.
  unfold deviation_filter.
  destruct (is_deviation_filtering config); reflexivity.
Qed.

Lemma collect_hits_all_none (l : list (option Hit)) :
  Forall (fun o => o = None) l -> collect_hits l = [].
Proof.
  induction 1 as [|o l Ho _ IH]; simpl; auto.
  rewrite Ho; exact IH.
Qed.

(** C2: [calc_width] is total.  When no ray yields a hit, or the filters
    remove every hit, it returns the [undetermined_width] sentinel;
    otherwise it returns the weighted average of the remaining hit
    distances.  In particular a scene where no ray hits anything (a point
    on an infinite plane with no other geometry) yields the sentinel. *)
Theorem calc_width_sentinel_or_average :
  forall (point normal : Vec3) (tree : AABBTree) (config : RaysConfig),
    (collect_hits (map (cast_ray point normal tree config) (dirs config)) = [] ->
       calc_width point normal tree config = undetermined_width) /\
    (filtered_hits point normal tree config = [] ->
       calc_width point normal tree config = undetermined_width) /\
    (filtered_hits point normal tree config <> [] ->
       calc_width point normal tree config
       = weighted_average (filtered_hits point normal tree config)) /\
    (forall tns : list Vec3,
       calc_width point normal (mkAABBTree (fun _ _ => None) tns) config
       = undetermined_width).
Proof.
  intros point normal tree config.
  assert (Hnil : forall t,
            collect_hits (map (cast_ray point normal t config) (dirs config)) = [] ->
            calc_width point normal t config = undetermined_width).
  { intros t H; unfold calc_width, filtered_hits; rewrite H.
    rewrite deviation_filter_nil; reflexivity. }
  split; [|split; [|split]].
  - apply Hnil.
  - intro H; unfold calc_width; rewrite H; reflexivity.
  - intro H; unfold calc_width.
    destruct (filtered_hits point normal tree config); [congruence|reflexivity].
  - intro tns; apply Hnil.
    apply collect_hits_all_none, Forall_map, Forall_forall.
    intros d _; reflexivity.
Qed.

(* ------------------------------------------------------------------ *)
(** ** Direction sampler *)

Lemma fibonacci_z_bounds (n i : nat) :
  (i < n)%nat -> 0 < fibonacci_z n i < 1.
Proof.
  intro Hi; unfold fibonacci_z.
  assert (Hn : INR i + 1 <= INR n).
  { rewrite <- S_INR; apply le_INR; lia. }
  assert (H0 : 0 <= INR i) by apply pos_INR.
  assert (Hpos : 0 < INR n) by lra.
  split.
  - apply Rlt_0_minus.
    apply (Rmult_lt_reg_r (INR n)); [exact Hpos|].
    unfold Rdiv; rewrite Rmult_assoc, Rinv_l by lra; lra.
  - assert (0 < (INR i + / 2) / INR n).
    { apply Rdiv_lt_0_compat; lra. }
    lra.
Qed.

Lemma fibonacci_point_unit (n i : nat) :
  (i < n)%nat ->
  squaredNorm (fibonacci_point n i) = 1 /\
  dot (fibonacci_point n i) unit_z = fibonacci_z n i.
Proof.
  intro Hi; pose proof (fibonacci_z_bounds n i Hi) as [Hz0 Hz1].
  unfold squaredNorm, dot, fibonacci_point, unit_z; simpl.
  set (z := fibonacci_z n i) in *.
  set (t := golden_angle * INR i).
  assert (Hr : sqrt (1 - z * z) * sqrt (1 - z * z) = 1 - z * z).
  { apply sqrt_sqrt; nra. }
  pose proof (sin2_cos2 t) as Hsc; unfold Rsqr in Hsc.
  split.
  - replace (sqrt (1 - z * z) * cos t * (sqrt (1 - z * z) * cos t) +
             sqrt (1 - z * z) * sin t * (sqrt (1 - z * z) * sin t) + z * z)
      with (sqrt (1 - z * z) * sqrt (1 - z * z) * (sin t * sin t + cos t * cos t)
            + z * z) by ring.
    rewrite Hr, Hsc; ring.
  - ring.
Qed.

Lemma create_fibonacci_sphere_samples_In (angle : R) (count : nat) (d : Direction) :
  In d (create_fibonacci_sphere_samples angle count) ->
  exists i, (i < count)%nat /\ dir d = fibonacci_point count i /\
            weight d = dot (dir d) unit_z /\
            polar_angle (dir d) <= deg_to_rad angle.
Proof.
  unfold create_fibonacci_sphere_samples.
  intro H; apply in_map_iff in H as [v [<- Hv]].
  apply filter_In in Hv as [Hv Hle].
  apply in_map_iff in Hv as [i [<- Hi]].
  apply in_seq in Hi.
  exists i; simpl; repeat split; try lia.
  apply Rleb_true_iff in Hle; exact Hle.
Qed.

(** C5: every direction returned by [create_fibonacci_sphere_samples] is a
    unit vector whose polar angle from [+Z] is at most the cone angle, and
    carries a non-negative weight equal to the cosine of that polar angle;
    between two returned directions, the one with the smaller polar angle
    has the larger weight. *)
Theorem create_fibonacci_sphere_samples_cone :
  forall (angle : R) (count_samples : nat),
    Forall (fun d =>
              squaredNorm (dir d) = 1 /\ norm (dir d) = 1 /\
              polar_angle (dir d) <= deg_to_rad angle /\
              0 <= weight d /\ weight d = cos (polar_angle (dir d)))
           (create_fibonacci_sphere_samples angle count_samples) /\
    Forall (fun d1 =>
              Forall (fun d2 =>
                        polar_angle (dir d1) < polar_angle (dir d2) ->
                        weight d2 < weight d1)
                     (create_fibonacci_sphere_samples angle count_samples))
           (create_fibonacci_sphere_samples angle count_samples).
Proof.
  intros angle count.
  assert (Hpt : forall d, In d (create_fibonacci_sphere_samples angle count) ->
            squaredNorm (dir d) = 1 /\ norm (dir d) = 1 /\
            polar_angle (dir d) <= deg_to_rad angle /\
            0 <= weight d /\ weight d = cos (polar_angle (dir d)) /\
            0 <= polar_angle (dir d) <= PI).
  { intros d Hd.
    destruct (create_fibonacci_sphere_samples_In angle count d Hd)
      as [i [Hi [Hdir [Hw Hpol]]]].
    destruct (fibonacci_point_unit count i Hi) as [Hn Hz].
    pose proof (fibonacci_z_bounds count i Hi) as Hb.
    rewrite Hdir in *.
    unfold polar_angle in *; rewrite Hz in *.
    repeat split.
    - exact Hn.
    - unfold norm; rewrite Hn; apply sqrt_1.
    - exact Hpol.
    - lra.
    - rewrite cos_acos by lra; exact Hw.
    - apply acos_bound.
    - apply acos_bound. }
  split.
  - apply Forall_forall; intros d Hd.
    destruct (Hpt d Hd) as (H1 & H2 & H3 & H4 & H5 & _); tauto.
  - apply Forall_forall; intros d1 H1; apply Forall_forall; intros d2 H2 Hlt.
    destruct (Hpt d1 H1) as (_ & _ & _ & _ & Hw1 & Hb1).
    destruct (Hpt d2 H2) as (_ & _ & _ & _ & Hw2 & Hb2).
    rewrite Hw1, Hw2.
    apply cos_decreasing_1; lra.
Qed.

(* ------------------------------------------------------------------ *)
(** ** Poisson thinner *)

Lemma existsb_false_forall {A : Type} (f : A -> bool) (l : list A) :
  existsb f l = false -> forall x, In x l -> f x = false.
Proof.
  induction l as [|y l IH]; simpl; [tauto|].
  intros H x [<-|Hx]; apply Bool.orb_false_iff in H as [H1 H2]; auto.
Qed.

(** The test of a candidate: some point of the grid within the candidate's
    radius has a radius sum with it that exceeds their distance. *)
Lemma poisson_reject_iff (grid : PointGrid3D) (s : PointRadius) :
  existsb (overlaps s) (query_within grid (point s) (radius s)) = true <->
  exists n, In n grid /\ dist (point n) (point s) <= radius s /\
            dist (point n) (point s) < radius s + radius n.
Proof.
  unfold query_within, overlaps; rewrite existsb_exists; split.
  - intros [n [Hn Ho]]; apply filter_In in Hn as [Hn Hq].
    apply Rleb_true_iff in Hq; apply Rltb_true_iff in Ho; eauto.
  - intros [n [Hn [Hq Ho]]]; exists n; split.
    + apply filter_In; split; [exact Hn|apply Rleb_true_iff; exact Hq].
    + apply Rltb_true_iff; exact Ho.
Qed.

Lemma poisson_accept_sep (grid : PointGrid3D) (s : PointRadius) :
  existsb (overlaps s) (query_within grid (point s) (radius s)) = false ->
  forall n, In n grid ->
    radius s < dist (point n) (point s) \/
    radius s + radius n <= dist (point n) (point s).
Proof.
  intros H n Hn.
  destruct (Rle_dec (dist (point n) (point s)) (radius s)) as [Hle|Hgt];
    [right|left; lra].
  assert (Hq : In n (query_within grid (point s) (radius s))).
  { apply filter_In; split; [exact Hn|apply Rleb_true_iff; exact Hle]. }
  pose proof (existsb_false_forall _ _ H n Hq) as Ho.
  unfold overlaps in Ho; apply Rltb_false_iff in Ho; exact Ho.
Qed.

Lemma poisson_pass_sep (samples : PointRadiuses) :
  forall (grid : PointGrid3D) pre s post,
    poisson_pass grid samples = pre ++ s :: post ->
    forall p, In p (grid ++ pre) ->
      radius s < dist (point p) (point s) \/
      radius s + radius p <= dist (point p) (point s).
Proof.
  induction samples as [|x rest IH]; intros grid pre s post H p Hp; simpl in H.
  - destruct pre; discriminate.
  - destruct (existsb (overlaps x) (query_within grid (point x) (radius x)))
      eqn:Hx.
    + exact (IH grid pre s post H p Hp).
    + destruct pre as [|y pre'].
      * simpl in H; injection H as <- _.
        rewrite app_nil_r in Hp.
        exact (poisson_accept_sep grid x Hx p Hp).
      * simpl in H; injection H as <- H.
        apply (IH (grid_insert grid x) pre' s post H p).
        unfold grid_insert; rewrite <- app_assoc; exact Hp.
Qed.

Lemma dist_0_2 : dist (mkVec 0 0 0) (mkVec 2 0 0) = 2.
Proof.
  unfold dist, dist2, squaredNorm, dot, vsub; simpl.
  replace ((0 - 2) * (0 - 2) + (0 - 0) * (0 - 0) + (0 - 0) * (0 - 0))
    with (2 * 2) by ring.
  apply sqrt_square; lra.
Qed.

(** C1 (counterexample): with a grid holding the point [(0,0,0)] of radius
    [5], the candidate [(2,0,0)] of radius [1] survives: the grid is
    queried within the candidate's own radius [1] only, so the neighbour at
    distance [2] is never tested, although [2 < 1 + 5]. *)
Lemma poisson_sphere_overlap_survives :
  exists s p : PointRadius,
    poisson_sphere_from_samples [s] [p] = [s] /\
    dist (point p) (point s) < radius s + radius p.
Proof.
  exists (mkPointRadius (mkVec 2 0 0) 1), (mkPointRadius (mkVec 0 0 0) 5).
  simpl; rewrite dist_0_2; split; [|lra].
  unfold poisson_sphere_from_samples, poisson_pass, query_within, filter; simpl.
  replace (Rleb 2 1) with false by (symmetry; apply Rleb_false_iff; lra).
  reflexivity.
Qed.

(** C1 (amended): a candidate is rejected exactly when some point already
    in the grid (a pre-existing point or an earlier accepted candidate)
    lies within the candidate's own radius and has a radius sum with it
    exceeding their distance; otherwise it is kept and inserted into the
    grid before the next candidate is tested.  Hence every surviving
    candidate [s] and every point [p] that was in the grid when [s] was
    tested are either farther apart than [radius s] or at least
    [radius s + radius p] apart. *)
Theorem poisson_sphere_from_samples_separation :
  (forall (grid : PointGrid3D) (s : PointRadius) (rest : PointRadiuses),
     ((exists n, In n grid /\ dist (point n) (point s) <= radius s /\
                 dist (point n) (point s) < radius s + radius n) /\
      poisson_pass grid (s :: rest) = poisson_pass grid rest) \/
     ((forall n, In n grid ->
         radius s < dist (point n) (point s) \/
         radius s + radius n <= dist (point n) (point s)) /\
      poisson_pass grid (s :: rest) = s :: poisson_pass (grid_insert grid s) rest)) /\
  (forall (samples : PointRadiuses) (grid : PointGrid3D) pre s post,
     poisson_sphere_from_samples samples grid = pre ++ s :: post ->
     forall p, In p (grid ++ pre) ->
       radius s < dist (point p) (point s) \/
       radius s + radius p <= dist (point p) (point s)).
Proof.
  split.
  - intros grid s rest; simpl.
    destruct (existsb (overlaps s) (query_within grid (point s) (radius s)))
      eqn:Hs.
    + left; split; [apply poisson_reject_iff; exact Hs|reflexivity].
    + right; split; [apply poisson_accept_sep; exact Hs|reflexivity].
  - intros samples grid; apply poisson_pass_sep.
Qed.

(* ------------------------------------------------------------------ *)
(** ** Support-point generator *)


Section SupportPointsProofs.
Context {Gen : Type}.
Variable vertex_normal : indexed_triangle_set -> nat -> Vec3.
Variable random_point_near : indexed_triangle_set -> nat -> Gen -> Vec3 * Gen.


End SupportPointsProofs.




(* ------------------------------------------------------------------ *)
(** ** Mesh normalizer: edge subdivision *)

Lemma dist2_nonneg (a b : Vec3) : 0 <= dist2 a b.
Proof.
  unfold dist2, squaredNorm, dot; nra.
Qed.

Lemma is_long_true_iff (L : R) (a b : Vec3) :
  0 <= L -> is_long L a b = true <-> L * L < dist2 a b.
Proof.
  intro HL; unfold is_long, dist; rewrite Rltb_true_iff.
  pose proof (dist2_nonneg a b) as H0.
  split; intro H.
  - pose proof (sqrt_sqrt (dist2 a b) H0); nra.
  - rewrite <- (sqrt_square L HL); apply sqrt_lt_1_alt; nra.
Qed.

Lemma is_long_false_iff (L : R) (a b : Vec3) :
  0 <= L -> is_long L a b = false <-> dist2 a b <= L * L.
Proof.
  intro HL; split; intro H.
  - destruct (Rle_dec (dist2 a b) (L * L)) as [Hle|Hgt]; [exact Hle|].
    assert (Hlt : L * L < dist2 a b) by lra.
    apply (is_long_true_iff L a b HL) in Hlt; congruence.
  - destruct (is_long L a b) eqn:E; [|reflexivity].
    apply (is_long_true_iff L a b HL) in E; lra.
Qed.

Ltac long_facts HL :=
  repeat match goal with
  | E : is_long _ _ _ = true |- _ => apply (is_long_true_iff _ _ _ HL) in E
  | E : is_long _ _ _ = false |- _ => apply (is_long_false_iff _ _ _ HL) in E
  end.

(** One split never leaves an edge above [max(L^2, 3/4 B)] when no edge of
    the triangle was above [B] (squared lengths): a split edge is halved,
    an edge between two midpoints is half of the third side, and a new
    diagonal is a median, shorter than [L] after a single split and than
    [sqrt(3)/2] times the longest side after a double split. *)
Lemma split_triangle_bound (L B : R) (t : Triangle) :
  0 <= L ->
  (forall e, In e (tri_edges t) -> dist2 (fst e) (snd e) <= B) ->
  forall t', In t' (split_triangle L t) ->
  forall e, In e (tri_edges t') ->
    dist2 (fst e) (snd e) <= Rmax (L * L) (3 / 4 * B).
Proof.
  intros HL HB t' Ht' e He.
  destruct t as [[a b] c].
  assert (Hab := HB (a, b) ltac:(simpl; auto)).
  assert (Hbc := HB (b, c) ltac:(simpl; auto)).
  assert (Hca := HB (c, a) ltac:(simpl; auto)).
  simpl in Hab, Hbc, Hca.
  pose proof (Rmax_l (L * L) (3 / 4 * B)) as HM1.
  pose proof (Rmax_r (L * L) (3 / 4 * B)) as HM2.
  set (M := Rmax (L * L) (3 / 4 * B)) in *.
  assert (HLL : 0 <= L * L) by nra.
  pose proof (dist2_nonneg a b) as H0.
  unfold split_triangle in Ht'.
  destruct (is_long L a b) eqn:E1, (is_long L b c) eqn:E2,
           (is_long L c a) eqn:E3;
    long_facts HL;
    simpl in Ht';
    repeat destruct Ht' as [<-|Ht']; try contradiction;
    simpl in He; repeat destruct He as [<-|He]; try contradiction;
    simpl fst; simpl snd;
    destruct a as [xa ya za], b as [xb yb zb], c as [xc yc zc];
    unfold dist2, squaredNorm, dot, vsub, midpoint, vscale, vadd in *;
    simpl in *; lra.
Qed.

Lemma extends_refl (vs : list Vec3) : extends vs vs.
Proof. exists []; rewrite app_nil_r; reflexivity. Qed.

Lemma extends_trans (vs1 vs2 vs3 : list Vec3) :
  extends vs1 vs2 -> extends vs2 vs3 -> extends vs1 vs3.
Proof.
  intros [e1 ->] [e2 ->]; exists (e1 ++ e2); rewrite app_assoc; reflexivity.
Qed.

Lemma extends_length (vs vs' : list Vec3) :
  extends vs vs' -> (length vs <= length vs')%nat.
Proof. intros [e ->]; rewrite length_app; lia. Qed.

Lemma extends_vertex_at (vs vs' : list Vec3) (m : nat) :
  extends vs vs' -> (m < length vs)%nat -> vertex_at vs' m = vertex_at vs m.
Proof. intros [e ->] Hm; unfold vertex_at; apply app_nth1; exact Hm. Qed.

Lemma face_in_extends (vs vs' : list Vec3) (f : Face) :
  extends vs vs' -> face_in vs f -> face_in vs' f.
Proof.
  intros He; pose proof (extends_length _ _ He).
  destruct f as [[i j] k]; simpl; lia.
Qed.

Lemma face_points_extends (vs vs' : list Vec3) (f : Face) :
  extends vs vs' -> face_in vs f -> face_points vs' f = face_points vs f.
Proof.
  intros He; destruct f as [[i j] k]; simpl; intros (Hi & Hj & Hk).
  rewrite !(extends_vertex_at vs vs') by assumption; reflexivity.
Qed.

Lemma midpoint_sym (a b : Vec3) : midpoint a b = midpoint b a.
Proof.
  unfold midpoint, vscale, vadd; f_equal; simpl; ring.
Qed.

Lemma cache_find_In (k : nat * nat) (cache : list ((nat * nat) * nat)) (m : nat) :
  cache_find k cache = Some m -> In (k, m) cache.
Proof.
  induction cache as [|[k' m'] rest IH]; simpl; [discriminate|].
  destruct (Nat.eqb (fst k) (fst k')) eqn:E1, (Nat.eqb (snd k) (snd k')) eqn:E2;
    simpl; intro H; try (right; apply IH; exact H).
  injection H as <-; left.
  apply Nat.eqb_eq in E1; apply Nat.eqb_eq in E2.
  destruct k, k'; simpl in *; subst; reflexivity.
Qed.

Lemma edge_key_midpoint (vs0 : list Vec3) (i j : nat) :
  midpoint (vertex_at vs0 (fst (edge_key i j))) (vertex_at vs0 (snd (edge_key i j)))
  = midpoint (vertex_at vs0 i) (vertex_at vs0 j).
Proof.
  unfold edge_key; destruct (Nat.leb i j); simpl; [reflexivity|apply midpoint_sym].
Qed.

Lemma midpoint_index_spec (vs0 : list Vec3) (i j : nat) (st st' : SubState)
    (m : nat) :
  round_inv vs0 st ->
  midpoint_index vs0 i j st = (m, st') ->
  round_inv vs0 st' /\ extends (fst st) (fst st') /\
  (m < length (fst st'))%nat /\
  vertex_at (fst st') m = midpoint (vertex_at vs0 i) (vertex_at vs0 j).
Proof.
  destruct st as [vs cache]; intros [Hext Hc] H; simpl in *.
  destruct (cache_find (edge_key i j) cache) as [m'|] eqn:Hf.
  - injection H as <- <-; simpl.
    apply cache_find_In in Hf.
    destruct (edge_key i j) as [a b] eqn:Ek.
    destruct (Hc a b m' Hf) as [Hlt Hv].
    split; [split; assumption|]; split; [apply extends_refl|]; split; [exact Hlt|].
    rewrite Hv, <- (edge_key_midpoint vs0 i j), Ek; reflexivity.
  - injection H as <- <-; unfold round_inv; cbn [fst snd].
    assert (Hnew : vertex_at (vs ++ [midpoint (vertex_at vs0 i) (vertex_at vs0 j)])
                     (length vs) = midpoint (vertex_at vs0 i) (vertex_at vs0 j)).
    { unfold vertex_at; rewrite app_nth2 by lia; rewrite Nat.sub_diag; reflexivity. }
    assert (Hx : extends vs (vs ++ [midpoint (vertex_at vs0 i) (vertex_at vs0 j)]))
      by (eexists; reflexivity).
    split; [split|split; [exact Hx|split]].
    + exact (extends_trans _ _ _ Hext Hx).
    + intros a b m2 [Hnew'|Hold].
      * injection Hnew' as Eab <-.
        rewrite length_app; simpl; split; [lia|].
        rewrite Hnew, <- (edge_key_midpoint vs0 i j), Eab; reflexivity.
      * destruct (Hc a b m2 Hold) as [Hlt Hv].
        split; [rewrite length_app; simpl; lia|].
        rewrite (extends_vertex_at vs) by assumption; exact Hv.
    + rewrite length_app; simpl; lia.
    + exact Hnew.
Qed.

Lemma midpoint_index_stable (vs0 : list Vec3) (i j : nat) (st st' : SubState)
    (m : nat) :
  round_inv vs0 st ->
  midpoint_index vs0 i j st = (m, st') ->
  round_inv vs0 st' /\ extends (fst st) (fst st') /\
  (forall vs', extends (fst st') vs' ->
     (m < length vs')%nat /\
     vertex_at vs' m = midpoint (vertex_at vs0 i) (vertex_at vs0 j)).
Proof.
  intros Hinv H.
  destruct (midpoint_index_spec vs0 i j st st' m Hinv H) as (Hinv' & Hx & Hlt & Hv).
  split; [exact Hinv'|split; [exact Hx|]].
  intros vs' Hx'; split.
  - pose proof (extends_length _ _ Hx'); lia.
  - rewrite (extends_vertex_at (fst st')) by assumption; exact Hv.
Qed.

(** One triangle of a round: the new faces index the final vertex list, and
    their positions are the geometric split of the triangle. *)
Lemma split_face_spec (L : R) (vs0 : list Vec3) (f : Face) (st st' : SubState)
    (fs : list Face) :
  round_inv vs0 st -> face_in vs0 f ->
  split_face L vs0 f st = (fs, st') ->
  round_inv vs0 st' /\ extends (fst st) (fst st') /\
  Forall (face_in (fst st')) fs /\
  map (face_points (fst st')) fs = split_triangle L (face_points vs0 f).
Proof.
  destruct f as [[i j] k]; intros Hinv Hf H; simpl in Hf.
  destruct Hf as (Hi & Hj & Hk).
  pose proof (proj1 Hinv) as H0.
  unfold split_face in H; simpl face_points; unfold split_triangle.
  destruct (is_long L (vertex_at vs0 i) (vertex_at vs0 j)) eqn:E1,
           (is_long L (vertex_at vs0 j) (vertex_at vs0 k)) eqn:E2,
           (is_long L (vertex_at vs0 k) (vertex_at vs0 i)) eqn:E3;
  repeat (match type of H with
          | context [midpoint_index vs0 ?x ?y ?s] =>
              let m := fresh "m" in
              let s' := fresh "st" in
              let Hm := fresh "Hm" in
              destruct (midpoint_index vs0 x y s) as [m s'] eqn:Hm;
              apply midpoint_index_stable in Hm; [|assumption];
              destruct Hm as (? & ? & ?)
          end; cbn beta iota in H);
  injection H as <- <-;
  match goal with
  | |- round_inv _ ?S /\ _ =>
      repeat match goal with
      | Hs : forall vs', extends (fst ?T) vs' -> _ |- _ =>
          let Hx := fresh in
          assert (Hx : extends (fst T) (fst S))
            by (eauto 6 using extends_trans, extends_refl);
          specialize (Hs (fst S) Hx); clear Hx; destruct Hs
      end;
      assert (HS : extends vs0 (fst S))
        by (eauto 6 using extends_trans, extends_refl);
      pose proof (extends_length _ _ HS);
      split; [assumption|];
      split; [eauto 6 using extends_trans, extends_refl|];
      split;
      [ repeat constructor; simpl; repeat split; lia
      | simpl;
        try rewrite (extends_vertex_at vs0 (fst S) i HS Hi);
        try rewrite (extends_vertex_at vs0 (fst S) j HS Hj);
        try rewrite (extends_vertex_at vs0 (fst S) k HS Hk);
        repeat match goal with
        | Hv : vertex_at (fst S) _ = _ |- _ => rewrite Hv; clear Hv
        end;
        reflexivity ]
  end.
Qed.

Lemma split_faces_spec (L : R) (vs0 : list Vec3) (fs : list Face) :
  forall (st st' : SubState) (out : list Face),
    round_inv vs0 st -> Forall (face_in vs0) fs ->
    split_faces L vs0 fs st = (out, st') ->
    round_inv vs0 st' /\ extends (fst st) (fst st') /\
    Forall (face_in (fst st')) out /\
    map (face_points (fst st')) out
    = flat_map (split_triangle L) (map (face_points vs0) fs).
Proof.
  induction fs as [|f rest IH]; intros st st' out Hinv Hfs H; simpl in H.
  - injection H as <- <-.
    split; [exact Hinv|split; [apply extends_refl|split; [constructor|reflexivity]]].
  - inversion Hfs as [|f' rest' Hf Hrest]; subst.
    destruct (split_face L vs0 f st) as [out1 st1] eqn:H1.
    destruct (split_faces L vs0 rest st1) as [out2 st2] eqn:H2.
    injection H as <- <-.
    destruct (split_face_spec L vs0 f st st1 out1 Hinv Hf H1)
      as (Hinv1 & Hx1 & Hin1 & Hmap1).
    destruct (IH st1 st2 out2 Hinv1 Hrest H2) as (Hinv2 & Hx2 & Hin2 & Hmap2).
    split; [exact Hinv2|split; [eapply extends_trans; eauto|split]].
    + apply Forall_app; split; [|exact Hin2].
      eapply Forall_impl; [|exact Hin1].
      intros g Hg; apply (face_in_extends (fst st1)); assumption.
    + simpl; rewrite map_app, Hmap2, <- Hmap1; f_equal.
      apply map_ext_in; intros g Hg.
      apply face_points_extends; [exact Hx2|].
      rewrite Forall_forall in Hin1; apply Hin1; exact Hg.
Qed.

Lemma valid_mesh_Forall (its : indexed_triangle_set) :
  valid_mesh its <-> Forall (face_in (vertices its)) (indices its).
Proof.
  unfold valid_mesh; rewrite Forall_forall; split.
  - intros H [[i j] k] Hf; exact (H i j k Hf).
  - intros H i j k Hf; exact (H (i, j, k) Hf).
Qed.

(** A round keeps the mesh well formed and replaces every triangle by its
    geometric split. *)
Lemma subdivide_round_spec (L : R) (its : indexed_triangle_set) :
  valid_mesh its ->
  valid_mesh (subdivide_round L its) /\
  map (face_points (vertices (subdivide_round L its))) (indices (subdivide_round L its))
  = flat_map (split_triangle L) (map (face_points (vertices its)) (indices its)).
Proof.
  intro Hv; apply valid_mesh_Forall in Hv.
  unfold subdivide_round.
  destruct (split_faces L (vertices its) (indices its) (vertices its, []))
    as [fs [vs cache]] eqn:H.
  assert (Hinv0 : round_inv (vertices its) (vertices its, [])).
  { split; [apply extends_refl|intros a b m []]. }
  destruct (split_faces_spec L (vertices its) (indices its) _ _ _ Hinv0 Hv H)
    as (_ & _ & Hin & Hmap).
  simpl in *; split; [apply valid_mesh_Forall; exact Hin|exact Hmap].
Qed.

Lemma mesh_edges_points (its : indexed_triangle_set) :
  mesh_edges its = flat_map tri_edges (map (face_points (vertices its)) (indices its)).
Proof.
  unfold mesh_edges; induction (indices its) as [|[[i j] k] rest IH]; simpl;
    [reflexivity|].
  rewrite IH; reflexivity.
Qed.

(** Squared edge lengths after a round: at most [max(L^2, 3/4 B)] when they
    were at most [B] before. *)
Lemma subdivide_round_bound (L B : R) (its : indexed_triangle_set) :
  0 <= L -> valid_mesh its ->
  (forall e, In e (mesh_edges its) -> dist2 (fst e) (snd e) <= B) ->
  forall e, In e (mesh_edges (subdivide_round L its)) ->
    dist2 (fst e) (snd e) <= Rmax (L * L) (3 / 4 * B).
Proof.
  intros HL Hv HB e He.
  rewrite mesh_edges_points, (proj2 (subdivide_round_spec L its Hv)) in He.
  apply in_flat_map in He as [t' [Ht' He]].
  apply in_flat_map in Ht' as [t [Ht Ht']].
  apply (split_triangle_bound L B t HL) with (t' := t'); auto.
  intros e' He'; apply HB; rewrite mesh_edges_points.
  apply in_flat_map; exists t; split; assumption.
Qed.

Lemma has_long_edge_false_iff (L : R) (its : indexed_triangle_set) :
  0 <= L ->
  has_long_edge L its = false <->
  (forall e, In e (mesh_edges its) -> dist2 (fst e) (snd e) <= L * L).
Proof.
  intro HL; unfold has_long_edge; split.
  - intros H e He.
    apply (is_long_false_iff L (fst e) (snd e) HL).
    exact (existsb_false_forall _ _ H e He).
  - intro H; destruct (existsb _ _) eqn:E; [|reflexivity].
    apply existsb_exists in E as [e [He El]].
    apply (is_long_true_iff L _ _ HL) in El; specialize (H e He); lra.
Qed.

(** While an edge is long, each round lowers the bound on squared edge
    lengths by [L^2/4] (or brings it to [L^2]); a budget of rounds covering
    the initial excess over [L^2] therefore ends with no long edge. *)
Lemma subdivide_loop_short (L : R) (fuel : nat) :
  0 < L ->
  forall (its : indexed_triangle_set) (B : R),
    valid_mesh its ->
    (forall e, In e (mesh_edges its) -> dist2 (fst e) (snd e) <= B) ->
    B - L * L <= INR fuel * (L * L / 4) ->
    valid_mesh (subdivide_loop fuel L its) /\
    (forall e, In e (mesh_edges (subdivide_loop fuel L its)) ->
       dist2 (fst e) (snd e) <= L * L) /\
    exists k, subdivide_loop fuel L its = Nat.iter k (subdivide_round L) its.
Proof.
  intro HL; induction fuel as [|n IH]; intros its B Hv HB Hf.
  - simpl in Hf |- *; split; [exact Hv|split; [|exists 0%nat; reflexivity]].
    intros e He; specialize (HB e He); lra.
  - simpl; destruct (has_long_edge L its) eqn:Hl.
    + assert (HBL : L * L < B).
      { unfold has_long_edge in Hl; apply existsb_exists in Hl as [e [He El]].
        apply (is_long_true_iff L _ _ (Rlt_le _ _ HL)) in El.
        specialize (HB e He); lra. }
      destruct (subdivide_round_spec L its Hv) as [Hv' _].
      destruct (IH (subdivide_round L its) (Rmax (L * L) (3 / 4 * B)) Hv')
        as (Hv'' & Hs & [k Hk]).
      * apply subdivide_round_bound; [lra|exact Hv|exact HB].
      * rewrite S_INR in Hf.
        assert (0 <= INR n * (L * L / 4))
          by (apply Rmult_le_pos; [apply pos_INR|nra]).
        unfold Rmax; destruct (Rle_dec (L * L) (3 / 4 * B)); lra.
      * split; [exact Hv''|split; [exact Hs|]].
        exists (S k); rewrite Hk, Nat.iter_succ_r; reflexivity.
    + split; [exact Hv|split; [|exists 0%nat; reflexivity]].
      apply has_long_edge_false_iff; [lra|exact Hl].
Qed.

Lemma max_edge2_bound (its : indexed_triangle_set) :
  0 <= max_edge2 its /\
  forall e, In e (mesh_edges its) -> dist2 (fst e) (snd e) <= max_edge2 its.
Proof.
  unfold max_edge2; induction (mesh_edges its) as [|e0 rest [H0 IH]]; simpl.
  - split; [lra|tauto].
  - split; [eapply Rle_trans; [exact H0|apply Rmax_r]|].
    intros e [<-|He]; [apply Rmax_l|].
    eapply Rle_trans; [apply IH; exact He|apply Rmax_r].
Qed.

Lemma subdivide_fuel_enough (its : indexed_triangle_set) (L : R) :
  0 < L ->
  max_edge2 its - L * L <= INR (subdivide_fuel its L) * (L * L / 4).
Proof.
  intro HL; unfold subdivide_fuel.
  set (B := max_edge2 its).
  assert (HB : 0 <= B) by apply max_edge2_bound.
  set (x := 4 * B / (L * L)).
  assert (Hx : 0 <= x).
  { unfold x, Rdiv; apply Rmult_le_pos; [lra|].
    apply Rlt_le, Rinv_0_lt_compat; nra. }
  destruct (archimed x) as [Hup _].
  assert (Hpos : (0 < up x)%Z) by (apply lt_IZR; simpl; lra).
  assert (Hinr : INR (Z.to_nat (up x)) = IZR (up x)).
  { rewrite INR_IZR_INZ, Z2Nat.id by lia; reflexivity. }
  rewrite S_INR, Hinr.
  assert (HxL : x * (L * L / 4) = B) by (unfold x; field; lra).
  assert (0 < L * L) by nra.
  nra.
Qed.

(** C7: for a well-formed mesh and a positive bound [max_length],
    [subdivide] stops after finitely many rounds of midpoint splits, in a
    well-formed mesh none of whose triangle edges is longer than
    [max_length]. *)
Theorem subdivide_max_edge_length :
  forall (its : indexed_triangle_set) (max_length : R),
    0 < max_length -> valid_mesh its ->
    valid_mesh (subdivide its max_length) /\
    Forall (fun e => dist (fst e) (snd e) <= max_length)
           (mesh_edges (subdivide its max_length)) /\
    has_long_edge max_length (subdivide its max_length) = false /\
    exists k, subdivide its max_length
              = Nat.iter k (subdivide_round max_length) its.
Proof.
  intros its L HL Hv.
  destruct (max_edge2_bound its) as [_ HB].
  destruct (subdivide_loop_short L (subdivide_fuel its L) HL its (max_edge2 its)
              Hv HB (subdivide_fuel_enough its L HL)) as (Hv' & Hs & Hk).
  fold (subdivide its L) in Hv', Hs, Hk.
  split; [exact Hv'|split; [|split; [|exact Hk]]].
  - apply Forall_forall; intros e He; specialize (Hs e He).
    unfold dist; rewrite <- (sqrt_square L) by lra.
    apply sqrt_le_1_alt; exact Hs.
  - apply has_long_edge_false_iff; [lra|exact Hs].
Qed.

Lemma subdivide_max_edge_length_witness :
  (0 < 10 /\ valid_mesh wall_triangle) /\
  valid_mesh (subdivide wall_triangle 10) /\
  Forall (fun e => dist (fst e) (snd e) <= 10) (mesh_edges (subdivide wall_triangle 10)) /\
  has_long_edge 10 (subdivide wall_triangle 10) = false /\
  exists k, subdivide wall_triangle 10 = Nat.iter k (subdivide_round 10) wall_triangle.
Proof.
  assert (H1 : 0 < 10) by lra.
  assert (H2 : valid_mesh wall_triangle).
  { intros i j k [Hf|[]]; injection Hf as <- <- <-; simpl; lia. }
  split; [split; assumption|].
  exact (subdivide_max_edge_length wall_triangle 10 H1 H2).
Defined.

(* ------------------------------------------------------------------ *)
(** ** Geometry utilities *)

Ltac vec_destruct :=
  repeat match goal with v : Vec3 |- _ => destruct v end.

(** [triangle_area] is non-negative, does not depend on the order in
    which the corners are listed (rotation or reversal), and is unchanged
    when the triangle is translated. *)
Theorem triangle_area_invariance :
  forall a b c : Vec3,
    0 <= triangle_area a b c /\
    triangle_area b c a = triangle_area a b c /\
    triangle_area a c b = triangle_area a b c /\
    (forall t : Vec3,
       triangle_area (vadd a t) (vadd b t) (vadd c t) = triangle_area a b c).
Proof.
  intros a b c; unfold triangle_area, norm, squaredNorm, dot, cross, vsub, vadd.
  vec_destruct; simpl.
  split; [|split; [|split]].
  - unfold Rdiv; apply Rmult_le_pos; [apply sqrt_pos|lra].
  - f_equal; f_equal; ring.
  - f_equal; f_equal; ring.
  - intro t; destruct t; simpl; f_equal; f_equal; ring.
Qed.

(** A degenerate triangle, whose third corner lies on the line through the
    first two (in particular a triangle with two equal corners), has area
    [0]. *)
Theorem triangle_area_degenerate :
  forall a b c : Vec3,
    (a = b \/ exists t : R, c = vadd a (vscale t (vsub b a))) ->
    triangle_area a b c = 0.
Proof.
  intros a b c [<-|[t ->]];
    unfold triangle_area, norm, squaredNorm, dot, cross, vsub, vadd, vscale;
    vec_destruct; simpl.
  - match goal with |- sqrt ?e / 2 = 0 => replace e with 0 by ring end.
    rewrite sqrt_0; lra.
  - match goal with |- sqrt ?e / 2 = 0 => replace e with 0 by ring end.
    rewrite sqrt_0; lra.
Qed.

(** [area] is non-negative, is [0] on a mesh without triangles, and adds
    up over a split of the triangle list. *)
Theorem area_additive :
  forall (vs : list Vec3) (fs1 fs2 : list Face),
    area (mkITS vs []) = 0 /\
    0 <= area (mkITS vs fs1) /\
    area (mkITS vs (fs1 ++ fs2)) = area (mkITS vs fs1) + area (mkITS vs fs2).
Proof.
  intros vs fs1 fs2; unfold area; simpl; split; [reflexivity|split].
  - induction fs1 as [|[[i j] k] rest IH]; simpl; [lra|].
    pose proof (proj1 (triangle_area_invariance (vertex_at vs i) (vertex_at vs j)
                                                  (vertex_at vs k))); lra.
  - induction fs1 as [|f rest IH]; simpl; [lra|]; rewrite IH; lra.
Qed.

(* ------------------------------------------------------------------ *)
(** ** Subdivision: surface area *)

Lemma triangle_area_piece (a b c x y z : Vec3) (k : R) :
  0 <= k ->
  cross (vsub y x) (vsub z x) = vscale k (cross (vsub b a) (vsub c a)) ->
  triangle_area x y z = k * triangle_area a b c.
Proof.
  intros Hk Hc; unfold triangle_area, norm; rewrite Hc.
  set (n := cross (vsub b a) (vsub c a)).
  assert (Hs : squaredNorm (vscale k n) = (k * k) * squaredNorm n)
    by (unfold squaredNorm, dot, vscale; simpl; ring).
  rewrite Hs, sqrt_mult_alt by nra; rewrite sqrt_square by lra; lra.
Qed.

Ltac vec_field :=
  repeat match goal with v : Vec3 |- _ => destruct v end;
  unfold cross, vsub, vscale, midpoint, vadd; simpl; f_equal; field.

Ltac area_pieces a b c :=
  repeat match goal with
  | |- context [triangle_area ?x ?y ?z] =>
      lazymatch constr:((x, y, z)) with
      | (a, b, c) => fail
      | _ =>
          first
            [ rewrite (triangle_area_piece a b c x y z (1 / 2))
                by first [lra | vec_field]
            | rewrite (triangle_area_piece a b c x y z (1 / 4))
                by first [lra | vec_field] ]
      end
  end.

Lemma split_triangle_area (L : R) (t : Triangle) :
  sum_R (map tri_area (split_triangle L t)) = tri_area t.
Proof.
  destruct t as [[a b] c]; unfold split_triangle.
  destruct (is_long L a b), (is_long L b c), (is_long L c a);
    cbn [map sum_R fold_right tri_area]; area_pieces a b c; lra.
Qed.

Lemma split_triangle_nonempty (L : R) (t : Triangle) :
  (1 <= length (split_triangle L t))%nat.
Proof.
  destruct t as [[a b] c]; unfold split_triangle.
  destruct (is_long L a b), (is_long L b c), (is_long L c a); simpl; lia.
Qed.

Lemma sum_R_app (l1 l2 : list R) : sum_R (l1 ++ l2) = sum_R l1 + sum_R l2.
Proof. induction l1 as [|x l IH]; simpl; [lra|]; unfold sum_R in *; rewrite IH; lra. Qed.

Lemma area_face_points (its : indexed_triangle_set) :
  area its = sum_R (map tri_area (map (face_points (vertices its)) (indices its))).
Proof.
  unfold area; induction (indices its) as [|[[i j] k] rest IH]; simpl; [reflexivity|].
  unfold sum_R in *; rewrite IH; reflexivity.
Qed.

Lemma flat_map_split_area (L : R) (ts : list Triangle) :
  sum_R (map tri_area (flat_map (split_triangle L) ts)) = sum_R (map tri_area ts).
Proof.
  induction ts as [|t rest IH]; simpl; [reflexivity|].
  rewrite map_app, sum_R_app, IH, split_triangle_area; reflexivity.
Qed.

Lemma flat_map_split_length (L : R) (ts : list Triangle) :
  (length ts <= length (flat_map (split_triangle L) ts))%nat.
Proof.
  induction ts as [|t rest IH]; simpl; [lia|].
  rewrite length_app; pose proof (split_triangle_nonempty L t); lia.
Qed.

Lemma subdivide_round_extends (L : R) (its : indexed_triangle_set) :
  valid_mesh its -> extends (vertices its) (vertices (subdivide_round L its)).
Proof.
  intro Hv; apply valid_mesh_Forall in Hv.
  unfold subdivide_round.
  destruct (split_faces L (vertices its) (indices its) (vertices its, []))
    as [fs [vs cache]] eqn:H.
  assert (Hinv0 : round_inv (vertices its) (vertices its, [])).
  { split; [apply extends_refl|intros a b m []]. }
  destruct (split_faces_spec L (vertices its) (indices its) _ _ _ Hinv0 Hv H)
    as (_ & Hext & _); exact Hext.
Qed.

Lemma subdivide_round_area_faces (L : R) (its : indexed_triangle_set) :
  valid_mesh its ->
  area (subdivide_round L its) = area its /\
  (length (indices its) <= length (indices (subdivide_round L its)))%nat.
Proof.
  intro Hv; destruct (subdivide_round_spec L its Hv) as [_ Hmap].
  rewrite !area_face_points, Hmap, flat_map_split_area; split; [reflexivity|].
  apply (f_equal (@length Triangle)) in Hmap.
  rewrite length_map in Hmap; rewrite Hmap.
  eapply Nat.le_trans; [|apply flat_map_split_length]; rewrite length_map; lia.
Qed.

Lemma subdivide_loop_iter (L : R) (fuel : nat) :
  forall its, exists k, subdivide_loop fuel L its = Nat.iter k (subdivide_round L) its.
Proof.
  induction fuel as [|n IH]; intro its; simpl; [exists 0%nat; reflexivity|].
  destruct (has_long_edge L its); [|exists 0%nat; reflexivity].
  destruct (IH (subdivide_round L its)) as [k Hk].
  exists (S k); rewrite Hk, Nat.iter_succ_r; reflexivity.
Qed.

Lemma iter_round_invariants (L : R) (its : indexed_triangle_set) (k : nat) :
  valid_mesh its ->
  valid_mesh (Nat.iter k (subdivide_round L) its) /\
  area (Nat.iter k (subdivide_round L) its) = area its /\
  extends (vertices its) (vertices (Nat.iter k (subdivide_round L) its)) /\
  (length (indices its) <= length (indices (Nat.iter k (subdivide_round L) its)))%nat.
Proof.
  intro Hv; induction k as [|k (Hv' & Ha & He & Hl)].
  - simpl; split; [exact Hv|split; [reflexivity|split; [apply extends_refl|lia]]].
  - rewrite Nat.iter_succ.
    set (m := Nat.iter k (subdivide_round L) its) in *.
    destruct (subdivide_round_spec L m Hv') as [Hv'' _].
    destruct (subdivide_round_area_faces L m Hv') as [Ha' Hl'].
    split; [exact Hv''|split; [lra|split; [|lia]]].
    eapply extends_trans; [exact He|apply subdivide_round_extends; exact Hv'].
Qed.

(** Subdividing a well-formed mesh keeps its surface area: the triangles
    that replace a split triangle exactly cover it. *)
Theorem subdivide_preserves_area :
  forall (its : indexed_triangle_set) (max_length : R),
    valid_mesh its -> area (subdivide its max_length) = area its.
Proof.
  intros its L Hv; unfold subdivide.
  destruct (subdivide_loop_iter L (subdivide_fuel its L) its) as [k ->].
  apply (iter_round_invariants L its k Hv).
Qed.

Lemma subdivide_preserves_area_witness :
  valid_mesh wall_triangle /\
  area (subdivide wall_triangle 10) = area wall_triangle.
Proof.
  assert (H : valid_mesh wall_triangle).
  { intros i j k [Hf|[]]; injection Hf as <- <- <-; simpl; lia. }
  split; [exact H|exact (subdivide_preserves_area wall_triangle 10 H)].
Defined.


Lemma subdivide_short_edges (its : indexed_triangle_set) (L : R) :
  0 < L -> valid_mesh its ->
  forall e, In e (mesh_edges (subdivide its L)) -> dist2 (fst e) (snd e) <= L * L.
Proof.
  intros HL Hv.
  destruct (max_edge2_bound its) as [_ HB].
  destruct (subdivide_loop_short L (subdivide_fuel its L) HL its (max_edge2 its)
              Hv HB (subdivide_fuel_enough its L HL)) as (_ & Hs & _).
  exact Hs.
Qed.

(** Subdivision is idempotent: a mesh without an edge longer than
    [max_length] is returned unchanged, and subdividing the result of a
    subdivision again with the same bound changes nothing. *)
Theorem subdivide_idempotent :
  forall (its : indexed_triangle_set) (max_length : R),
    (has_long_edge max_length its = false -> subdivide its max_length = its) /\
    (0 < max_length -> valid_mesh its ->
     subdivide (subdivide its max_length) max_length = subdivide its max_length).
Proof.
  assert (Hfix : forall its L, has_long_edge L its = false -> subdivide its L = its).
  { intros its L H; unfold subdivide, subdivide_fuel; simpl; rewrite H; reflexivity. }
  intros its L; split; [apply Hfix|].
  intros HL Hv; apply Hfix.
  apply has_long_edge_false_iff; [lra|].
  apply subdivide_short_edges; assumption.
Qed.

Lemma min_side_fold (es : list (Vec3 * Vec3)) :
  let r := fold_right
             (fun e acc =>
                let l := dist (fst e) (snd e) in
                match acc with
                | None => Some l
                | Some m => Some (Rmin l m)
                end) None es in
  (r = None <-> es = []) /\
  forall m, r = Some m ->
    (forall e, In e es -> m <= dist (fst e) (snd e)) /\
    exists e, In e es /\ m = dist (fst e) (snd e).
Proof.
  induction es as [|e0 rest [IHn IHs]]; simpl.
  - split; [tauto|intros m H; discriminate].
  - destruct (fold_right _ None rest) as [m0|] eqn:Hr.
    + split; [split; intro H; discriminate|].
      intros m H; injection H as <-.
      destruct (IHs m0 eq_refl) as [Hle [e1 [He1 Hm1]]].
      split.
      * intros e [<-|He]; [apply Rmin_l|].
        eapply Rle_trans; [apply Rmin_r|apply Hle; exact He].
      * unfold Rmin; destruct (Rle_dec (dist (fst e0) (snd e0)) m0).
        -- exists e0; split; [left; reflexivity|reflexivity].
        -- exists e1; split; [right; exact He1|exact Hm1].
    + assert (rest = []) by (apply IHn; reflexivity); subst rest.
      split; [split; intro H; discriminate|].
      intros m H; injection H as <-; split.
      * intros e [<-|[]]; lra.
      * exists e0; split; [left; reflexivity|reflexivity].
Qed.


(** After subdividing a well-formed mesh with at least one triangle by a
    positive [max_length], the shortest triangle side is at most
    [max_length]. *)
Theorem subdivide_min_triangle_side_length :
  forall (its : indexed_triangle_set) (max_length : R),
    0 < max_length -> valid_mesh its -> indices its <> [] ->
    exists m, min_triangle_side_length (subdivide its max_length) = Some m /\
              m <= max_length.
Proof.
  intros its L HL Hv Hne.
  set (out := subdivide its L).
  assert (Hout : indices out <> []).
  { unfold out, subdivide.
    destruct (subdivide_loop_iter L (subdivide_fuel its L) its) as [k ->].
    destruct (iter_round_invariants L its k Hv) as (_ & _ & _ & Hl).
    destruct (indices its) as [|f rest]; [contradiction|].
    destruct (indices (Nat.iter k (subdivide_round L) its)); simpl in Hl;
      [lia|discriminate]. }
  destruct (min_side_fold (mesh_edges out)) as [Hn Hs].
  destruct (min_triangle_side_length out) as [m|] eqn:Hm.
  - exists m; split; [reflexivity|].
    destruct (Hs m Hm) as [_ [e [He ->]]].
    pose proof (subdivide_short_edges its L HL Hv e He) as H2.
    unfold dist; rewrite <- (sqrt_square L) by lra.
    apply sqrt_le_1_alt; exact H2.
  - exfalso; apply Hout.
    assert (Hnil : mesh_edges out = []) by (apply Hn; exact Hm).
    unfold mesh_edges in Hnil; destruct (indices out) as [|[[i j] k] rest];
      [reflexivity|discriminate].
Qed.

Lemma subdivide_min_triangle_side_length_witness :
  (0 < 10 /\ valid_mesh wall_triangle /\ indices wall_triangle <> []) /\
  exists m, min_triangle_side_length (subdivide wall_triangle 10) = Some m /\ m <= 10.
Proof.
  assert (H1 : 0 < 10) by lra.
  assert (H2 : valid_mesh wall_triangle).
  { intros i j k [Hf|[]]; injection Hf as <- <- <-; simpl; lia. }
  assert (H3 : indices wall_triangle <> []) by discriminate.
  split; [split; [exact H1|split; assumption]|].
  exact (subdivide_min_triangle_side_length wall_triangle 10 H1 H2 H3).
Defined.

(* ------------------------------------------------------------------ *)
(** ** Width to radius mapping *)

(** With a well-ordered width range and radius range, [width_to_radius]
    sends every width up to [min_width] to [min_radius], every width from
    [max_width] on to [max_radius], and never gives a smaller radius to a
    wider part. *)
Theorem width_to_radius_monotone :
  forall cfg : SampleConfig,
    min_width cfg < max_width cfg -> min_radius cfg <= max_radius cfg ->
    (forall w, w <= min_width cfg -> width_to_radius cfg w = min_radius cfg) /\
    (forall w, max_width cfg <= w -> width_to_radius cfg w = max_radius cfg) /\
    (forall w1 w2, w1 <= w2 -> width_to_radius cfg w1 <= width_to_radius cfg w2).
Proof.
  intros cfg Hw Hr; unfold width_to_radius.
  set (a := min_width cfg) in *; set (b := max_width cfg) in *.
  set (ra := min_radius cfg) in *; set (rb := max_radius cfg) in *.
  split; [|split].
  - intros w Hle.
    replace (Rmax a (Rmin w b)) with a.
    + unfold Rdiv; rewrite Rminus_diag, !Rmult_0_l; lra.
    + unfold Rmax, Rmin; destruct (Rle_dec w b), (Rle_dec a w), (Rle_dec a b);
        lra.
  - intros w Hle.
    replace (Rmax a (Rmin w b)) with b.
    + field; lra.
    + unfold Rmax, Rmin; destruct (Rle_dec w b), (Rle_dec a w), (Rle_dec a b);
        lra.
  - intros w1 w2 H12.
    assert (Hc : Rmax a (Rmin w1 b) <= Rmax a (Rmin w2 b)).
    { unfold Rmax, Rmin; destruct (Rle_dec w1 b), (Rle_dec w2 b);
        destruct (Rle_dec a w1), (Rle_dec a w2), (Rle_dec a b); lra. }
    apply Rplus_le_compat_l, Rmult_le_compat_r; [lra|].
    unfold Rdiv; apply Rmult_le_compat_r; [|lra].
    apply Rlt_le, Rinv_0_lt_compat; lra.
Qed.

Lemma width_to_radius_monotone_witness :
  (min_width SampleConfig_default < max_width SampleConfig_default /\
   min_radius SampleConfig_default <= max_radius SampleConfig_default) /\
  width_to_radius SampleConfig_default (1 / 20) = min_radius SampleConfig_default.
Proof.
  assert (H1 : min_width SampleConfig_default < max_width SampleConfig_default)
    by (simpl; lra).
  assert (H2 : min_radius SampleConfig_default <= max_radius SampleConfig_default)
    by (simpl; lra).
  split; [split; assumption|].
  apply (proj1 (width_to_radius_monotone SampleConfig_default H1 H2)).
  simpl; lra.
Defined.

(* ------------------------------------------------------------------ *)
(** ** SDF width estimator: range and deviation filter *)

Lemma collect_hits_In (l : list (option Hit)) (h : Hit) :
  In h (collect_hits l) -> In (Some h) l.
Proof.
  induction l as [|[x|] rest IH]; simpl; [tauto| |].
  - intros [<-|H]; [left; reflexivity|right; apply IH; exact H].
  - intro H; right; apply IH; exact H.
Qed.

Lemma deviation_filter_incl (config : RaysConfig) (hs : list Hit) (h : Hit) :
  In h (deviation_filter config hs) -> In h hs.
Proof.
  unfold deviation_filter; destruct (_ && _)%bool; [|tauto].
  intro H; apply filter_In in H; apply H.
Qed.

Lemma weighted_sums_bounds (lo hi : R) (hs : list Hit) :
  Forall (fun h => lo <= fst h <= hi /\ 0 < snd h) hs ->
  lo * weight_sum hs <= fold_right (fun h acc => fst h * snd h + acc) 0 hs <=
  hi * weight_sum hs /\ 0 <= weight_sum hs.
Proof.
  induction 1 as [|h rest [Hlo Hw] _ IH]; unfold weight_sum in *; simpl; [lra|].
  destruct IH as [[IH1 IH2] IH3]; nra.
Qed.

Lemma weight_sum_pos (hs : list Hit) :
  hs <> [] -> Forall (fun h => 0 < snd h) hs -> 0 < weight_sum hs.
Proof.
  intros Hne Hf; destruct hs as [|h rest]; [contradiction|].
  inversion Hf as [|? ? Hh Hr]; subst.
  unfold weight_sum; simpl.
  assert (0 <= fold_right (fun h acc => snd h + acc) 0 rest).
  { clear Hne Hf Hh; induction Hr; simpl; lra. }
  lra.
Qed.

(** When every first hit of the spatial index lies at a distance in
    [[lo, hi]] and every ray direction has a positive weight, [calc_width]
    returns either the undetermined width or a width in [[lo, hi]]: the
    filters only drop hits and the weighted average stays between the
    smallest and the largest kept distance. *)
Theorem calc_width_range :
  forall (point normal : Vec3) (tree : AABBTree) (config : RaysConfig)
         (lo hi : R),
    (forall o d t tri, intersect_ray_first_hit tree o d = Some (t, tri) ->
                       lo <= t <= hi) ->
    Forall (fun d => 0 < weight d) (dirs config) ->
    calc_width point normal tree config = undetermined_width \/
    lo <= calc_width point normal tree config <= hi.
Proof.
  intros point normal tree config lo hi Htree Hw.
  assert (Hall : Forall (fun h => lo <= fst h <= hi /\ 0 < snd h)
                   (filtered_hits point normal tree config)).
  { apply Forall_forall; intros h Hh.
    apply deviation_filter_incl, collect_hits_In, in_map_iff in Hh.
    destruct Hh as [d [Hc Hd]].
    rewrite Forall_forall in Hw; specialize (Hw d Hd).
    unfold cast_ray in Hc.
    destruct (intersect_ray_first_hit tree _ _) as [[t tri]|] eqn:Hq;
      [|discriminate].
    destruct (_ && _)%bool; [discriminate|].
    injection Hc as <-; simpl; split; [eapply Htree; exact Hq|exact Hw]. }
  unfold calc_width.
  destruct (filtered_hits point normal tree config) as [|h rest] eqn:Hf;
    [left; reflexivity|right].
  assert (Hpos : 0 < weight_sum (h :: rest)).
  { apply weight_sum_pos; [discriminate|].
    eapply Forall_impl; [|exact Hall]; intros x [_ Hx]; exact Hx. }
  destruct (weighted_sums_bounds lo hi (h :: rest) Hall) as [[H1 H2] _].
  unfold weighted_average; split.
  - apply Rmult_le_reg_r with (r := weight_sum (h :: rest)); [exact Hpos|].
    unfold Rdiv; rewrite Rmult_assoc, Rinv_l by lra; lra.
  - apply Rmult_le_reg_r with (r := weight_sum (h :: rest)); [exact Hpos|].
    unfold Rdiv; rewrite Rmult_assoc, Rinv_l by lra; lra.
Qed.

Lemma calc_width_range_witness :
  ((forall o d t tri,
      intersect_ray_first_hit (mkAABBTree (fun _ _ => Some (2, 0%nat)) []) o d
      = Some (t, tri) -> 1 <= t <= 3) /\
   Forall (fun d => 0 < weight d) (dirs (mkRaysConfig (-1) (-1)
             [mkDirection unit_z 1] (1 / 1000) (3 / 10)))) /\
  (calc_width vzero unit_z (mkAABBTree (fun _ _ => Some (2, 0%nat)) [])
     (mkRaysConfig (-1) (-1) [mkDirection unit_z 1] (1 / 1000) (3 / 10))
   = undetermined_width \/
   1 <= calc_width vzero unit_z (mkAABBTree (fun _ _ => Some (2, 0%nat)) [])
          (mkRaysConfig (-1) (-1) [mkDirection unit_z 1] (1 / 1000) (3 / 10))
   <= 3).
Proof.
  assert (H1 : forall o d t tri,
      intersect_ray_first_hit (mkAABBTree (fun _ _ => Some (2, 0%nat)) []) o d
      = Some (t, tri) -> 1 <= t <= 3).
  { intros o d t tri H; simpl in H; injection H as <- _; lra. }
  assert (H2 : Forall (fun d => 0 < weight d) (dirs (mkRaysConfig (-1) (-1)
             [mkDirection unit_z 1] (1 / 1000) (3 / 10)))).
  { simpl; constructor; [simpl; lra|constructor]. }
  split; [split; assumption|].
  exact (calc_width_range vzero unit_z _ _ 1 3 H1 H2).
Defined.



(** With [0 < allowed_deviation < 1], the deviation filter of [calc_width]
    discards both of two equally weighted hits at different distances:
    each lies exactly one standard deviation from their mean. *)
Theorem deviation_filter_drops_two_hits :
  forall (config : RaysConfig) (d1 d2 w : R),
    0 < allowed_deviation config < 1 -> 0 < w -> d1 <> d2 ->
    deviation_filter config [(d1, w); (d2, w)] = [].
Proof.
  intros config d1 d2 w Hk Hw Hd.
  assert (Hon : is_deviation_filtering config = true)
    by (apply Rltb_true_iff; lra).
  unfold deviation_filter; rewrite Hon; cbn [andb length Nat.leb].
  assert (Hm : weighted_average [(d1, w); (d2, w)] = (d1 + d2) / 2).
  { unfold weighted_average, weight_sum; simpl; field; lra. }
  assert (Hsd : weighted_deviation [(d1, w); (d2, w)] = Rabs (d1 - d2) / 2).
  { unfold weighted_deviation; rewrite Hm; unfold weight_sum; simpl.
    replace (w * ((d1 - (d1 + d2) / 2) * (d1 - (d1 + d2) / 2)) +
             (w * ((d2 - (d1 + d2) / 2) * (d2 - (d1 + d2) / 2)) + 0))
      with ((w + (w + 0)) * ((Rabs (d1 - d2) / 2) * (Rabs (d1 - d2) / 2))).
    - unfold Rdiv at 1; rewrite Rmult_comm, <- Rmult_assoc, Rinv_l, Rmult_1_l by lra.
      apply sqrt_square; unfold Rdiv; apply Rmult_le_pos; [apply Rabs_pos|lra].
    - assert (Ha : Rabs (d1 - d2) * Rabs (d1 - d2) = (d1 - d2) * (d1 - d2)).
      { rewrite <- Rabs_mult; apply Rabs_pos_eq; apply Rle_0_sqr. }
      transitivity ((w + (w + 0)) * (Rabs (d1 - d2) * Rabs (d1 - d2)) / 4);
        [field|rewrite Ha; field].
  }
  rewrite Hm, Hsd.
  assert (Hp : 0 < Rabs (d1 - d2)) by (apply Rabs_pos_lt; lra).
  assert (E1 : Rabs (d1 - (d1 + d2) / 2) = Rabs (d1 - d2) / 2).
  { replace (d1 - (d1 + d2) / 2) with ((d1 - d2) / 2) by field.
    unfold Rdiv; rewrite Rabs_mult, (Rabs_pos_eq (/ 2)) by lra; reflexivity. }
  assert (E2 : Rabs (d2 - (d1 + d2) / 2) = Rabs (d1 - d2) / 2).
  { replace (d2 - (d1 + d2) / 2) with (- ((d1 - d2) / 2)) by field.
    rewrite Rabs_Ropp; unfold Rdiv; rewrite Rabs_mult, (Rabs_pos_eq (/ 2)) by lra;
      reflexivity. }
  simpl filter; cbn [fst snd]; rewrite E1, E2.
  assert (Hf : Rleb (Rabs (d1 - d2) / 2) (allowed_deviation config * (Rabs (d1 - d2) / 2))
               = false) by (apply Rleb_false_iff; nra).
  rewrite Hf; reflexivity.
Qed.

Lemma deviation_filter_drops_two_hits_witness :
  (0 < allowed_deviation (mkRaysConfig (1 / 2) (-1) [] (1 / 1000) (3 / 10)) < 1 /\
   0 < 1 /\ 2 <> 3) /\
  deviation_filter (mkRaysConfig (1 / 2) (-1) [] (1 / 1000) (3 / 10))
    [(2, 1); (3, 1)] = [].
Proof.
  assert (H1 : 0 < allowed_deviation (mkRaysConfig (1 / 2) (-1) [] (1 / 1000) (3 / 10)) < 1)
    by (simpl; lra).
  assert (H2 : 0 < 1) by lra.
  assert (H3 : 2 <> 3) by lra.
  split; [split; [exact H1|split; assumption]|].
  exact (deviation_filter_drops_two_hits _ 2 3 1 H1 H2 H3).
Defined.

(* ------------------------------------------------------------------ *)
(** ** Direction sampler: cone wider than the half sphere *)

Lemma acos_lt_half_pi (z : R) : 0 < z < 1 -> acos z < PI / 2.
Proof.
  intro Hz; rewrite acos_atan by lra.
  destruct (atan_bound (sqrt (1 - z²) / z)); lra.
Qed.

Lemma filter_all_true {A : Type} (f : A -> bool) (l : list A) :
  (forall x, In x l -> f x = true) -> filter f l = l.
Proof.
  induction l as [|x rest IH]; intro H; simpl; [reflexivity|].
  rewrite (H x (or_introl eq_refl)), IH; [reflexivity|].
  intros y Hy; apply H; right; exact Hy.
Qed.

(** [create_fibonacci_sphere_samples] returns at most [count_samples]
    directions; for a cone angle of at least [90] degrees none of the
    [count_samples] spiral points of the half sphere is discarded, so
    exactly [count_samples] directions are returned, in spiral order (the
    default [RaysConfig] therefore casts 60 rays). *)
Theorem create_fibonacci_sphere_samples_count :
  forall (angle : R) (count_samples : nat),
    (length (create_fibonacci_sphere_samples angle count_samples) <= count_samples)%nat /\
    (90 <= angle ->
     map dir (create_fibonacci_sphere_samples angle count_samples)
     = map (fibonacci_point count_samples) (seq 0 count_samples)) /\
    length (dirs RaysConfig_default) = 60%nat.
Proof.
  assert (Hall : forall angle n, 90 <= angle ->
     map dir (create_fibonacci_sphere_samples angle n)
     = map (fibonacci_point n) (seq 0 n)).
  { intros angle n Ha; unfold create_fibonacci_sphere_samples.
    rewrite map_map; simpl; rewrite map_id.
    apply filter_all_true; intros v Hv.
    apply in_map_iff in Hv; destruct Hv as [i [<- Hi]]; apply in_seq in Hi.
    apply Rleb_true_iff; unfold polar_angle.
    destruct (fibonacci_point_unit n i ltac:(lia)) as [_ ->].
    pose proof (fibonacci_z_bounds n i ltac:(lia)) as Hz.
    pose proof (acos_lt_half_pi _ Hz).
    unfold deg_to_rad; pose proof PI_RGT_0; nra. }
  intros angle n; split; [|split; [apply Hall|]].
  - unfold create_fibonacci_sphere_samples; rewrite length_map.
    eapply Nat.le_trans; [apply filter_length_le|].
    rewrite length_map, length_seq; lia.
  - simpl dirs; rewrite <- (length_map dir), Hall by lra.
    rewrite length_map, length_seq; reflexivity.
Qed.

(* ------------------------------------------------------------------ *)
(** ** Poisson thinner: subsequence and idempotence *)

(** [poisson_sphere_from_samples] only removes samples: its result is the
    subsequence of [samples] selected by a keep/drop mask, so the
    surviving samples keep their positions, radii and relative order. *)
Theorem poisson_sphere_from_samples_subsequence :
  forall (samples : PointRadiuses) (grid : PointGrid3D),
    exists keep : list bool,
      length keep = length samples /\
      poisson_sphere_from_samples samples grid
      = map snd (filter fst (combine keep samples)).
Proof.
  unfold poisson_sphere_from_samples.
  induction samples as [|s rest IH]; intro grid; simpl.
  - exists []; split; reflexivity.
  - destruct (existsb (overlaps s) (query_within grid (point s) (radius s))).
    + destruct (IH grid) as [keep [Hl He]].
      exists (false :: keep); simpl; split; [rewrite Hl; reflexivity|exact He].
    + destruct (IH (grid_insert grid s)) as [keep [Hl He]].
      exists (true :: keep); simpl; split; [rewrite Hl; reflexivity|].
      rewrite He; reflexivity.
Qed.

(** Thinning is idempotent: thinning the survivors again against the same
    initial grid keeps every one of them. *)
Theorem poisson_sphere_from_samples_idempotent :
  forall (samples : PointRadiuses) (grid : PointGrid3D),
    poisson_sphere_from_samples (poisson_sphere_from_samples samples grid) grid
    = poisson_sphere_from_samples samples grid.
Proof.
  unfold poisson_sphere_from_samples.
  induction samples as [|s rest IH]; intro grid; simpl; [reflexivity|].
  destruct (existsb (overlaps s) (query_within grid (point s) (radius s))) eqn:E.
  - apply IH.
  - simpl; rewrite E, IH; reflexivity.
Qed.


(* ------------------------------------------------------------------ *)
(** ** Ray bundle rotation *)

(** For a unit target [t], [rotate_pole_to t] sends the pole axis [+Z] to
    [t] and preserves dot products, so the rotated ray directions keep
    their lengths and the angles between them. *)
Theorem rotate_pole_to_rotation :
  forall t : Vec3,
    squaredNorm t = 1 ->
    rotate_pole_to t unit_z = t /\
    forall u w : Vec3, dot (rotate_pole_to t u) (rotate_pole_to t w) = dot u w.
Proof.
  intros [tx ty tz] Ht; unfold squaredNorm, dot in Ht; simpl in Ht.
  unfold rotate_pole_to; simpl.
  destruct (Req_dec_T (1 + tz) 0) as [Hz|Hz].
  - assert (tz = -1) by lra; subst tz.
    assert (tx = 0) by nra; assert (ty = 0) by nra; subst.
    split; [unfold unit_z; simpl; f_equal; ring|].
    intros [ux uy uz] [wx wy wz]; unfold dot; simpl; ring.
  - set (s := / (1 + tz)).
    assert (Hs : s * (1 + tz) = 1) by (unfold s; field; exact Hz).
    clearbody s.
    split.
    + unfold unit_z, vadd, cross, vscale; simpl; f_equal; nsatz.
    + intros [ux uy uz] [wx wy wz]; unfold dot, vadd, cross, vscale, unit_z; simpl.
      nsatz.
Qed.

Lemma rotate_pole_to_rotation_witness :
  squaredNorm (mkVec 0 0 (-1)) = 1 /\
  rotate_pole_to (mkVec 0 0 (-1)) unit_z = mkVec 0 0 (-1).
Proof.
  assert (H : squaredNorm (mkVec 0 0 (-1)) = 1)
    by (unfold squaredNorm, dot; simpl; ring).
  split; [exact H|exact (proj1 (rotate_pole_to_rotation _ H))].
Defined.


Lemma triangle_area_degenerate_witness :
  (unit_z = unit_z \/
   exists t : R, mkVec 0 0 2 = vadd unit_z (vscale t (vsub unit_z unit_z))) /\
  triangle_area unit_z unit_z (mkVec 0 0 2) = 0.
Proof.
  assert (H : unit_z = unit_z \/
   exists t : R, mkVec 0 0 2 = vadd unit_z (vscale t (vsub unit_z unit_z)))
    by (left; reflexivity).
  split; [exact H|exact (triangle_area_degenerate _ _ _ H)].
Defined.
